(** * ID-photo cropper: crop geometry and size-constrained JPEG search

    A shallow embedding of [src/app/page.tsx] (the 3:4 page):
    [autoAlign], [nudgeFaceY], [encodeJpegUnder2MB], [findBestSizeAndEncode],
    [findBestSizeOnly] and the preview-estimate effect guarded by
    [estimateSeq].

    Numbers.  A JavaScript [number] is embedded as an exact rational ([Q]);
    values that the source obtains from [Math.floor] / [Math.round] or from
    the DOM ([naturalWidth], [canvas.width], [blob.size]) are integers ([Z]).
    Equalities between rationals are [Qeq] ([==]).  IEEE-754 rounding, NaN
    and infinities are outside this model: every statement below is about
    the arithmetic the source writes, carried out exactly.

    Asynchrony.  [await]ed calls inside one invocation run strictly in
    sequence, so the searches are ordinary functions of the encoder; the
    only interleaving that matters (several preview estimates in flight) is
    modelled by an explicit event-driven transition system. *)

From Stdlib Require Import String Ascii.
From Stdlib Require Import ZArith QArith Qround Qminmax Lia Lqa List Bool.
Import ListNotations.
Local Open Scope Q_scope.

(** ** The fragment of [Math] that the page uses *)

Module JSMath.

(** [Math.floor] *)
Definition floor (v : Q) : Z := Qfloor v.

(** [Math.round]: nearest integer, ties towards +infinity *)
Definition round (v : Q) : Z := Qfloor (v + 0.5).

(** [Math.max] and [Math.min] on two arguments *)
Definition max (a b : Q) : Q := Qmax a b.

Definition min (a b : Q) : Q := Qmin a b.

End JSMath.

(** ** Module-level constants (lines 8-22) *)

Definition ASPECT_W : Q := 3.
Definition ASPECT_H : Q := 4.
Definition TARGET_AR : Q := ASPECT_W / ASPECT_H.
Definition MAX_BYTES : Z := 2 * 1024 * 1024.
Definition DEFAULT_FACE_Y_FRACTION : Q := 0.38.
Definition DESIRED_FACE_FRAC : Q := 0.48.

(** ** Rectangles: [Area] of react-easy-crop and the face [boundingBox] *)

Module Area.

Record t : Type := mk { x : Q; y : Q; width : Q; height : Q }.

End Area.

(** [type DetectBox = {x, y, width, height} | null] *)
Definition DetectBox : Type := option Area.t.

(** ** Abrupt completion

    [None] stands for an abrupt completion (a [TypeError] from reading a
    property of [null]); [Some v] for a normal return of [v]. *)

Definition bind {A B : Type} (m : option A) (k : A -> option B) : option B :=
  match m with
  | Some a => k a
  | None => None
  end.

Notation "v <- m ;; k" := (bind m (fun v => k))
  (at level 61, m at next level, right associativity).

(** ** Crop geometry (lines 135-194) *)

(** The two properties of the loaded [HTMLImageElement] that the page reads. *)
Record HTMLImageElement : Type := mkImg {
  naturalWidth : Z;
  naturalHeight : Z
}.

(** The [crop] state, in percent. *)
Module Crop.

Record t : Type := mk { x : Q; y : Q }.

End Crop.

(** The React state read or written by the geometry callbacks. *)
Record PageState : Type := mkPage {
  imgEl : option HTMLImageElement;
  crop : Crop.t;
  zoom : Q;
  faceYFrac : Q
}.

(** [(W / TARGET_AR <= H) ? Math.round(W / TARGET_AR) : H], the expression
    that both [autoAlign] (line 140) and [nudgeFaceY] (line 182) bind to
    [baseH]. *)
Definition baseH (W H : Q) : Q :=
  if Qle_bool (W / TARGET_AR) H
  then inject_Z (JSMath.round (W / TARGET_AR))
  else H.

(** [autoAlign] (lines 135-172); [face] is the value that
    [await detectFace(imgEl)] resolves to. *)
Definition autoAlign (st : PageState) (face : DetectBox) : PageState :=
  match imgEl st with
  | None => st
  | Some img =>
      let W := inject_Z (naturalWidth img) in
      let H := inject_Z (naturalHeight img) in
      let baseH := baseH W H in
      let desiredH :=
        match face with
        | Some f =>
            let faceH := Area.height f in
            JSMath.max 32
              (JSMath.min H
                 (inject_Z (JSMath.round (faceH / DESIRED_FACE_FRAC))))
        | None => baseH
        end in
      let initZoom := JSMath.max 1 (JSMath.min 5 (baseH / desiredH)) in
      let cx :=
        match face with
        | Some f => Area.x f + Area.width f / 2
        | None => W / 2
        end in
      let cy :=
        match face with
        | Some f => Area.y f + Area.height f / 2
        | None => H / 2
        end in
      let viewH := baseH / initZoom in
      let viewW := viewH * TARGET_AR in
      let left := cx - viewW / 2 in
      let top := cy - faceYFrac st * viewH in
      let left := JSMath.max 0 (JSMath.min left (W - viewW)) in
      let top := JSMath.max 0 (JSMath.min top (H - viewH)) in
      let offsetX := - (left / W) * 100 in
      let offsetY := - (top / H) * 100 in
      {| imgEl := imgEl st;
         crop := {| Crop.x := offsetX; Crop.y := offsetY |};
         zoom := initZoom;
         faceYFrac := faceYFrac st |}
  end.

(** The local [newTop] of [nudgeFaceY] (lines 180-189). *)
Definition nudgeNewTop (img : HTMLImageElement) (st : PageState) (v : Q) : Q :=
  let W := inject_Z (naturalWidth img) in
  let H := inject_Z (naturalHeight img) in
  let baseH := baseH W H in
  let viewH := baseH / zoom st in
  let curTop := - Crop.y (crop st) * 0.01 * H in
  let cyApprox := curTop + faceYFrac st * viewH in
  JSMath.max 0 (JSMath.min (cyApprox - v * viewH) (H - viewH)).

(** [nudgeFaceY] (lines 177-194): [setFaceYFrac(v)], and when an image is
    loaded, [setCrop({ x: offsetX, y: offsetY })]. *)
Definition nudgeFaceY (st : PageState) (v : Q) : PageState :=
  match imgEl st with
  | None =>
      {| imgEl := imgEl st; crop := crop st; zoom := zoom st; faceYFrac := v |}
  | Some img =>
      let W := inject_Z (naturalWidth img) in
      let H := inject_Z (naturalHeight img) in
      let curLeft := - Crop.x (crop st) * 0.01 * W in
      let newTop := nudgeNewTop img st v in
      let offsetX := - (curLeft / W) * 100 in
      let offsetY := - (newTop / H) * 100 in
      {| imgEl := imgEl st;
         crop := {| Crop.x := offsetX; Crop.y := offsetY |};
         zoom := zoom st;
         faceYFrac := v |}
  end.

(** The view rectangle that a zoom and a percentage offset denote on a
    raster: [left = -offsetX/100*W], [top = -offsetY/100*H],
    [viewH = baseH/zoom], [viewW = viewH*TARGET_AR]. *)
Definition viewRect (img : HTMLImageElement) (st : PageState) : Area.t :=
  let W := inject_Z (naturalWidth img) in
  let H := inject_Z (naturalHeight img) in
  let viewH := baseH W H / zoom st in
  {| Area.x := - Crop.x (crop st) / 100 * W;
     Area.y := - Crop.y (crop st) / 100 * H;
     Area.width := viewH * TARGET_AR;
     Area.height := viewH |}.

(** A rectangle lies inside [[0,W] x [0,H]]. *)
Definition insideRaster (img : HTMLImageElement) (r : Area.t) : Prop :=
  0 <= Area.x r /\ Area.x r + Area.width r <= inject_Z (naturalWidth img) /\
  0 <= Area.y r /\ Area.y r + Area.height r <= inject_Z (naturalHeight img).

(** ** Bisection traces

    Both searches of the page halve an interval a fixed number of times and
    move [lo] up when the midpoint fits, [hi] down otherwise.  [bisect]
    lists the midpoints that such a loop visits, in order. *)

Fixpoint bisect (fits : Q -> bool) (n : nat) (lo hi : Q) : list Q :=
  match n with
  | O => []
  | S n' =>
      let m := (lo + hi) / 2 in
      m :: (if fits m then bisect fits n' m hi else bisect fits n' lo m)
  end.

(** The last element of a trace that fits, if any. *)
Fixpoint lastFit (fits : Q -> bool) (l : list Q) : option Q :=
  match l with
  | [] => None
  | v :: l' =>
      match lastFit fits l' with
      | Some u => Some u
      | None => if fits v then Some v else None
      end
  end.

(** ** Rendering, encoding and the two searches (lines 212-313) *)

Section Encoder.

(** The decoded source bitmap and the encoder's output are opaque. *)
Variable Image : Type.
Variable Blob : Type.

(** [blob.size] *)
Variable size : Blob -> Z.

(** A canvas after [c.width = w; c.height = h] and
    [ctx.drawImage(image, cropPx.x, cropPx.y, cropPx.width, cropPx.height,
    0, 0, w, h)]. *)
Record Canvas : Type := mkCanvas {
  cwidth : Z;
  cheight : Z;
  csource : Image;
  csrcRect : Area.t
}.

Definition drawImage (image : Image) (cropPx : Area.t) (w h : Z) : Canvas :=
  {| cwidth := w; cheight := h; csource := image; csrcRect := cropPx |}.

(** [makeJpegBlob(canvas, q)] (lines 212-218): the promise resolves with a
    blob, from [toBlob] or else from [toDataURL]; the encoder is taken to be
    a total function of the canvas and the quality. *)
Variable makeJpegBlob : Canvas -> Q -> Blob.

(** [{ blob: Blob; q: number }] *)
Record Enc : Type := mkEnc { blob : Blob; q : Q }.

(** The [for] loop of [encodeJpegUnder2MB] (lines 223-227) with [n]
    iterations left. *)
Fixpoint qualityLoop (c : Canvas) (n : nat) (lo hi : Q) (best : option Enc)
  : option Enc :=
  match n with
  | O => best
  | S n' =>
      let v := (lo + hi) / 2 in
      let b := makeJpegBlob c v in
      if (size b <=? MAX_BYTES)%Z
      then qualityLoop c n' v hi (Some {| blob := b; q := v |})
      else qualityLoop c n' lo v best
  end.

(** [encodeJpegUnder2MB] (lines 220-233).  [best] is nullable in the
    source, hence the [option]. *)
Definition encodeJpegUnder2MB (c : Canvas) : option Enc :=
  let best := qualityLoop c 8 0.5 0.95 None in
  let best :=
    match best with
    | None => Some {| blob := makeJpegBlob c 0.5; q := 0.5 |}
    | Some _ => best
    end in
  best.

(** [{ blob: Blob; q: number; w: number; h: number }]; the first two fields
    are renamed because [blob] and [q] already name the fields of [Enc]. *)
Record Sized : Type := mkSized { sblob : Blob; sq : Q; w : Z; h : Z }.

(** The [for] loop of [findBestSizeAndEncode] (lines 246-265) with [n]
    iterations left.  The outer [option] is the completion of the loop, the
    inner one the nullable [best]. *)
Fixpoint sizeLoop (image : Image) (cropPx : Area.t) (maxW maxH : Z)
  (n : nat) (lo hi : Q) (best : option Sized) : option (option Sized) :=
  match n with
  | O => Some best
  | S n' =>
      let s := (lo + hi) / 2 in
      let w := Z.max 1 (JSMath.floor (inject_Z maxW * s)) in
      let h := Z.max 1 (JSMath.floor (inject_Z maxH * s)) in
      let c := drawImage image cropPx w h in
      enc <- encodeJpegUnder2MB c ;;
      if (size (blob enc) <=? MAX_BYTES)%Z
      then sizeLoop image cropPx maxW maxH n' s hi
             (Some {| sblob := blob enc; sq := q enc; w := w; h := h |})
      else sizeLoop image cropPx maxW maxH n' lo s best
  end.

(** [findBestSizeAndEncode] (lines 236-282). *)
Definition findBestSizeAndEncode (image : Image) (cropPx : Area.t)
  : option Sized :=
  let srcW := JSMath.floor (Area.width cropPx) in
  let srcH := JSMath.floor (Area.height cropPx) in
  let maxW := srcW in
  let maxH := srcH in
  best <- sizeLoop image cropPx maxW maxH 8 0.2 1.0 None ;;
  match best with
  | Some b => Some b
  | None =>
      let targetW := Z.min 800 maxW in
      let targetH :=
        JSMath.round (inject_Z targetW * (ASPECT_H / ASPECT_W)) in
      let c := drawImage image cropPx targetW targetH in
      enc <- encodeJpegUnder2MB c ;;
      Some {| sblob := blob enc; sq := q enc; w := targetW; h := targetH |}
  end.

(** [{ w: number; h: number }] of the preview estimate. *)
Record Dims : Type := mkDims { dw : Z; dh : Z }.

(** The [for] loop of [findBestSizeOnly] (lines 294-306). *)
Fixpoint sizeOnlyLoop (image : Image) (cropPx : Area.t) (maxW maxH : Z)
  (n : nat) (lo hi : Q) (best : option Dims) : option (option Dims) :=
  match n with
  | O => Some best
  | S n' =>
      let s := (lo + hi) / 2 in
      let w := Z.max 1 (JSMath.floor (inject_Z maxW * s)) in
      let h := Z.max 1 (JSMath.floor (inject_Z maxH * s)) in
      let c := drawImage image cropPx w h in
      enc <- encodeJpegUnder2MB c ;;
      if (size (blob enc) <=? MAX_BYTES)%Z
      then sizeOnlyLoop image cropPx maxW maxH n' s hi
             (Some {| dw := w; dh := h |})
      else sizeOnlyLoop image cropPx maxW maxH n' lo s best
  end.

(** [findBestSizeOnly] (lines 286-313). *)
Definition findBestSizeOnly (image : Image) (cropPx : Area.t) : option Dims :=
  let srcW := JSMath.floor (Area.width cropPx) in
  let srcH := JSMath.floor (Area.height cropPx) in
  let maxW := srcW in
  let maxH := srcH in
  best <- sizeOnlyLoop image cropPx maxW maxH 6 0.2 1.0 None ;;
  match best with
  | Some b => Some b
  | None =>
      let w := Z.min 800 maxW in
      let h := JSMath.round (inject_Z w * (ASPECT_H / ASPECT_W)) in
      Some {| dw := w; dh := h |}
  end.

(** *** Traces of the two searches *)

(** [blob.size <= MAX_BYTES] for the encoding of [c] at quality [v]. *)
Definition fitsAt (c : Canvas) (v : Q) : bool :=
  (size (makeJpegBlob c v) <=? MAX_BYTES)%Z.

(** The eight midpoint qualities of one call of [encodeJpegUnder2MB]. *)
Definition midpointQualities (c : Canvas) : list Q :=
  bisect (fitsAt c) 8 0.5 0.95.

(** The canvas that [findBestSizeAndEncode] renders for scale [s]. *)
Definition canvasAt (image : Image) (cropPx : Area.t) (s : Q) : Canvas :=
  let maxW := JSMath.floor (Area.width cropPx) in
  let maxH := JSMath.floor (Area.height cropPx) in
  drawImage image cropPx
    (Z.max 1 (JSMath.floor (inject_Z maxW * s)))
    (Z.max 1 (JSMath.floor (inject_Z maxH * s))).

(** The test of line 259 for scale [s]: the encoding that
    [encodeJpegUnder2MB] returns for the canvas at [s] is within budget. *)
Definition scaleFits (image : Image) (cropPx : Area.t) (s : Q) : bool :=
  match encodeJpegUnder2MB (canvasAt image cropPx s) with
  | Some enc => (size (blob enc) <=? MAX_BYTES)%Z
  | None => false
  end.

(** The eight midpoint scales of one call of [findBestSizeAndEncode]. *)
Definition midpointScales (image : Image) (cropPx : Area.t) : list Q :=
  bisect (scaleFits image cropPx) 8 0.2 1.0.

(** The record that line 260 stores for scale [s]. *)
Definition sizedAt (image : Image) (cropPx : Area.t) (s : Q) : option Sized :=
  let c := canvasAt image cropPx s in
  enc <- encodeJpegUnder2MB c ;;
  Some {| sblob := blob enc; sq := q enc; w := cwidth c; h := cheight c |}.

(** The qualities at which [encodeJpegUnder2MB] may encode a canvas: the
    eight midpoints and the fallback quality 0.5 of line 229. *)
Definition triedQualities (c : Canvas) : list Q :=
  midpointQualities c ++ [0.5].

(** The encoder is over budget at every sampled scale and every quality
    tried there. *)
Definition neverFits (image : Image) (cropPx : Area.t) : Prop :=
  Forall
    (fun s =>
       Forall
         (fun v =>
            (MAX_BYTES < size (makeJpegBlob (canvasAt image cropPx s) v))%Z)
         (triedQualities (canvasAt image cropPx s)))
    (midpointScales image cropPx).

(** ** The preview-estimate effect (lines 285, 315-328)

    The effect and the timer callback it schedules, as a transition system
    over the events of the single-threaded event loop.  Only this effect's
    writes to [outWidth], [outHeight] and [filename] are part of the
    system; those of [doExport] are not. *)

(** What a scheduled callback has captured in its closure. *)
Record Job : Type := mkJob {
  mySeq : nat;
  jobImage : Image;
  jobCrop : Area.t;
  jobUserEditedName : bool
}.

(** [filename] is either what the user typed or [id-photo_<w>x<h>]. *)
Inductive Filename : Type :=
| UserText
| IdPhoto (w h : Z).

Record Estimator : Type := mkEstimator {
  estimateSeq : nat;
  timer : option Job;
  awaiting : list Job;
  outWidth : Z;
  outHeight : Z;
  filename : Filename;
  userEditedName : bool
}.

Inductive Event : Type :=
| Render (img : option Image) (croppedAreaPx : option Area.t)
    (edited : bool)
| TimerFires
| Settles (i : nat).

(** What an observer of a run sees. *)
Inductive Obs : Type :=
| Issued (seq : nat)
| Applied (seq : nat) (d : Dims)
| Discarded (seq : nat).

(** [Render img croppedAreaPx edited]: a render in which the dependencies
    [imgEl], [croppedAreaPx], [userEditedName] took these values; React
    runs the previous cleanup ([clearTimeout(t)]) and then the effect body
    (lines 316-318, 326-327).
    [TimerFires]: the pending timeout runs its callback up to the [await]
    (line 320).
    [Settles i]: the promise awaited by the [i]-th suspended callback
    settles and the callback runs to its end (lines 320-325). *)
Definition step (st : Estimator) (e : Event) : Estimator * list Obs :=
  match e with
  | Render img croppedAreaPx edited =>
      match img, croppedAreaPx with
      | Some image, Some area =>
          let mySeq := S (estimateSeq st) in
          ({| estimateSeq := mySeq;
              timer := Some {| mySeq := mySeq; jobImage := image;
                               jobCrop := area;
                               jobUserEditedName := edited |};
              awaiting := awaiting st;
              outWidth := outWidth st; outHeight := outHeight st;
              filename := filename st;
              userEditedName := edited |},
           [Issued mySeq])
      | _, _ =>
          ({| estimateSeq := estimateSeq st;
              timer := None;
              awaiting := awaiting st;
              outWidth := outWidth st; outHeight := outHeight st;
              filename := filename st;
              userEditedName := edited |},
           [])
      end
  | TimerFires =>
      match timer st with
      | Some j =>
          ({| estimateSeq := estimateSeq st;
              timer := None;
              awaiting := awaiting st ++ [j];
              outWidth := outWidth st; outHeight := outHeight st;
              filename := filename st;
              userEditedName := userEditedName st |},
           [])
      | None => (st, [])
      end
  | Settles i =>
      match nth_error (awaiting st) i with
      | Some j =>
          let rest := firstn i (awaiting st) ++ skipn (S i) (awaiting st) in
          match findBestSizeOnly (jobImage j) (jobCrop j) with
          | Some best =>
              if negb (Nat.eqb (estimateSeq st) (mySeq j))
              then
                ({| estimateSeq := estimateSeq st; timer := timer st;
                    awaiting := rest;
                    outWidth := outWidth st; outHeight := outHeight st;
                    filename := filename st;
                    userEditedName := userEditedName st |},
                 [Discarded (mySeq j)])
              else
                ({| estimateSeq := estimateSeq st; timer := timer st;
                    awaiting := rest;
                    outWidth := dw best; outHeight := dh best;
                    filename :=
                      if negb (jobUserEditedName j)
                      then IdPhoto (dw best) (dh best)
                      else filename st;
                    userEditedName := userEditedName st |},
                 [Applied (mySeq j) best])
          | None =>
              ({| estimateSeq := estimateSeq st; timer := timer st;
                  awaiting := rest;
                  outWidth := outWidth st; outHeight := outHeight st;
                  filename := filename st;
                  userEditedName := userEditedName st |},
               [Discarded (mySeq j)])
          end
      | None => (st, [])
      end
  end.

(** A run from [st]: the final state and everything observed on the way. *)
Fixpoint run (st : Estimator) (evs : list Event) : Estimator * list Obs :=
  match evs with
  | [] => (st, [])
  | e :: evs' =>
      let (st1, o1) := step st e in
      let (st2, o2) := run st1 evs' in
      (st2, o1 ++ o2)
  end.

(** The state at mount: [useRef(0)], no timer, the default output size. *)
Definition mounted : Estimator :=
  {| estimateSeq := 0; timer := None; awaiting := [];
     outWidth := 360; outHeight := 480;
     filename := IdPhoto 360 480; userEditedName := false |}.

End Encoder.

Arguments cwidth {Image}.
Arguments cheight {Image}.
Arguments drawImage {Image}.
Arguments blob {Blob}.
Arguments q {Blob}.
Arguments sblob {Blob}.
Arguments sq {Blob}.
Arguments w {Blob}.
Arguments h {Blob}.
Arguments fitsAt {Image Blob}.
Arguments midpointQualities {Image Blob}.
Arguments encodeJpegUnder2MB {Image Blob}.
Arguments canvasAt {Image}.
Arguments scaleFits {Image Blob}.
Arguments midpointScales {Image Blob}.
Arguments sizedAt {Image Blob}.
Arguments triedQualities {Image Blob}.
Arguments neverFits {Image Blob}.
Arguments findBestSizeAndEncode {Image Blob}.
Arguments findBestSizeOnly {Image Blob}.
Arguments qualityLoop {Image Blob}.
Arguments sizeLoop {Image Blob}.
Arguments sizeOnlyLoop {Image Blob}.
Arguments csource {Image}.
Arguments csrcRect {Image}.
Arguments mySeq {Image}.
Arguments jobImage {Image}.
Arguments jobCrop {Image}.
Arguments jobUserEditedName {Image}.
Arguments estimateSeq {Image}.
Arguments timer {Image}.
Arguments awaiting {Image}.
Arguments outWidth {Image}.
Arguments outHeight {Image}.
Arguments filename {Image}.
Arguments userEditedName {Image}.
Arguments Render {Image}.
Arguments TimerFires {Image}.
Arguments Settles {Image}.
Arguments step {Image Blob}.
Arguments run {Image Blob}.
Arguments mounted {Image}.

(** ** Observation logs of the preview-estimate effect *)

(** The sequence numbers issued in a log, oldest first. *)
Fixpoint issuedTags (log : list Obs) : list nat :=
  match log with
  | [] => []
  | Issued k :: l => k :: issuedTags l
  | _ :: l => issuedTags l
  end.

(** The most recently issued sequence number; 0, the initial value of
    [estimateSeq.current], before the first one. *)
Definition lastIssued (log : list Obs) : nat := last (issuedTags log) 0%nat.

(** The output size on display after a log, given the one before it. *)
Fixpoint displayed (d0 : Z * Z) (log : list Obs) : Z * Z :=
  match log with
  | [] => d0
  | Applied _ d :: l => displayed (dw d, dh d) l
  | _ :: l => displayed d0 l
  end.

(** What holds of a state of the effect and of the log that led to it:
    the numbers issued are 1 .. [estimateSeq]; every scheduled or suspended
    callback carries a number that was issued; every result applied carried
    the number issued last before it; the size on display is the default or
    the last one applied. *)
Definition estimatorInv {Image : Type} (st : Estimator Image)
  (log : list Obs) : Prop :=
  issuedTags log = seq 1 (estimateSeq st) /\
  (forall j, timer st = Some j -> In (Issued (mySeq j)) log) /\
  (forall j, In j (awaiting st) -> In (Issued (mySeq j)) log) /\
  (forall pre k d post,
      log = pre ++ Applied k d :: post ->
      k = lastIssued pre /\ In (Issued k) pre) /\
  (outWidth st, outHeight st) = displayed (360, 480)%Z log.

(** ** Sample encoders and inputs

    Blobs are represented by their byte size and images carry no data. *)

(** An encoder whose output is always 3 MiB. *)
Definition overBudgetEncoder (c : Canvas unit) (v : Q) : Z :=
  3 * 1024 * 1024.

(** An encoder whose output is always one byte. *)
Definition oneByteEncoder (c : Canvas unit) (v : Q) : Z := 1.

(** An encoder whose output grows with the pixel count and the quality:
    three bytes per pixel at quality 1. *)
Definition sampleEncoder (c : Canvas unit) (v : Q) : Z :=
  JSMath.floor (inject_Z (cwidth c * cheight c) * v * 3).

Definition crop1200x1600 : Area.t :=
  {| Area.x := 0; Area.y := 0; Area.width := 1200; Area.height := 1600 |}.

Definition crop800x1000 : Area.t :=
  {| Area.x := 0; Area.y := 0; Area.width := 800; Area.height := 1000 |}.

Definition crop600x800 : Area.t :=
  {| Area.x := 40; Area.y := 25; Area.width := 600; Area.height := 800 |}.

Definition cropHalfPixel : Area.t :=
  {| Area.x := 0; Area.y := 0; Area.width := 0.5; Area.height := 0.5 |}.

(** Three estimates A, B, C issued in quick succession on three different
    crops; A and B reach their [await] before the next one is issued, B
    settles before A, and both settle before C's timer has even fired. *)
Definition rapidABC : list (Event unit) :=
  [ Render (Some tt) (Some crop1200x1600) false; TimerFires;
    Render (Some tt) (Some crop800x1000) false; TimerFires;
    Render (Some tt) (Some crop600x800) false;
    Settles 1; Settles 0;
    TimerFires; Settles 0 ].

Definition samplePage : PageState :=
  {| imgEl := Some {| naturalWidth := 1000; naturalHeight := 1500 |};
     crop := {| Crop.x := - 10; Crop.y := - 5 |};
     zoom := 2;
     faceYFrac := DEFAULT_FACE_Y_FRACTION |}.

(** ** More about the two searches *)

(** The interval [(lo, hi)] that a bisection loop is left with after [n]
    iterations. *)
Fixpoint bisectBounds (fits : Q -> bool) (n : nat) (lo hi : Q) : Q * Q :=
  match n with
  | O => (lo, hi)
  | S n' =>
      let m := (lo + hi) / 2 in
      if fits m then bisectBounds fits n' m hi else bisectBounds fits n' lo m
  end.

(** The six midpoint scales of one call of [findBestSizeOnly]; the test of
    line 305 is the test of line 259. *)
Definition previewScales {Image Blob : Type} (size : Blob -> Z)
  (makeJpegBlob : Canvas Image -> Q -> Blob) (image : Image)
  (cropPx : Area.t) : list Q :=
  bisect (scaleFits size makeJpegBlob image cropPx) 6 0.2 1.0.

(** The [{ w, h }] that line 305 stores for scale [s]. *)
Definition dimsAt (cropPx : Area.t) (s : Q) : Dims :=
  {| dw := Z.max 1
             (JSMath.floor (inject_Z (JSMath.floor (Area.width cropPx)) * s));
     dh := Z.max 1
             (JSMath.floor (inject_Z (JSMath.floor (Area.height cropPx)) * s))
  |}.

(** The [{ w, h }] of lines 308-310, when no sampled scale fits. *)
Definition fallbackDims (cropPx : Area.t) : Dims :=
  let w := Z.min 800 (JSMath.floor (Area.width cropPx)) in
  {| dw := w; dh := JSMath.round (inject_Z w * (ASPECT_H / ASPECT_W)) |}.

(** An encoder that spends 8400 bytes on every pixel column, whatever the
    quality: a canvas fits the budget exactly when it is at most 249 pixels
    wide. *)
Definition columnEncoder (c : Canvas unit) (v : Q) : Z :=
  (cwidth c * 8400)%Z.

(** ** More about the preview-estimate effect *)

(** The sequence number of the estimate that an observation reports as
    finished, applied or not. *)
Definition finishedTag (o : Obs) : option nat :=
  match o with
  | Applied k _ => Some k
  | Discarded k => Some k
  | Issued _ => None
  end.

Definition isRender {Image : Type} (e : Event Image) : bool :=
  match e with
  | Render _ _ _ => true
  | _ => false
  end.

(** The callbacks that are scheduled or suspended in a state. *)
Definition pendingJobs {Image : Type} (st : Estimator Image)
  : list (Job Image) :=
  match timer st with
  | Some j => j :: awaiting st
  | None => awaiting st
  end.

(** What holds after the estimate number [n] for [image] and [area] was
    issued, as long as no later one is: [n] is the current number, no
    pending callback carries a larger one, those that carry [n] captured
    [image] and [area], and either one of them is still pending or the
    size on display is the estimate for [image] and [area]. *)
Definition latestInv {Image Blob : Type} (size : Blob -> Z)
  (makeJpegBlob : Canvas Image -> Q -> Blob) (n : nat) (image : Image)
  (area : Area.t) (st : Estimator Image) : Prop :=
  estimateSeq st = n /\
  (forall j, In j (pendingJobs st) ->
     (mySeq j <= n)%nat /\
     (mySeq j = n -> jobImage j = image /\ jobCrop j = area)) /\
  ((exists j, In j (pendingJobs st) /\ mySeq j = n)
   \/ findBestSizeOnly size makeJpegBlob image area
      = Some {| dw := outWidth st; dh := outHeight st |}).

(** What holds of the estimate number [k] once it has been cancelled
    before its timer fired: no pending callback carries [k], later numbers
    are larger, and the log reports nothing finished under [k]. *)
Definition cancelledInv {Image : Type} (k : nat) (st : Estimator Image)
  (log : list Obs) : Prop :=
  (k <= estimateSeq st)%nat /\
  (forall j, In j (pendingJobs st) -> mySeq j <> k) /\
  (forall o, In o log -> finishedTag o <> Some k).

(** Two renders in a row, then the timer of the second fires and its
    estimate settles. *)
Definition debouncedAB : list (Event unit) :=
  [ Render (Some tt) (Some crop1200x1600) false;
    Render (Some tt) (Some crop600x800) false;
    TimerFires; Settles 0 ].

(** ** Face detection (lines 118-132) *)

(** One entry of the array that [FaceDetector.detect] resolves to. *)
Record DetectedFace : Type := mkFace { boundingBox : option Area.t }.

(** What [new window.FaceDetector(...)] followed by [await det.detect(source)]
    does: it throws (or rejects), or it resolves to a possibly missing
    array of faces. *)
Inductive Detection : Type :=
| Throws
| Resolves (faces : option (list DetectedFace)).

(** [detectFace]; [FaceDetector] is [None] when [window.FaceDetector] is
    not a function. *)
Definition detectFace (FaceDetector : option Detection) : DetectBox :=
  match FaceDetector with
  | Some (Resolves (Some (f :: _))) =>
      match boundingBox f with
      | Some b =>
          Some {| Area.x := Area.x b; Area.y := Area.y b;
                  Area.width := Area.width b; Area.height := Area.height b |}
      | None => None
      end
  | _ => None
  end.

(** The raster point under the guide line that the page draws at
    [faceYFrac] of the view height (line 486), as the state denotes it. *)
Definition guidePointY (img : HTMLImageElement) (st : PageState) : Q :=
  Area.y (viewRect img st) + faceYFrac st * Area.height (viewRect img st).

(** A page with a 1000 x 1500 image, zoom 2 and the view at (100, 300). *)
Definition nudgedPage : PageState :=
  {| imgEl := Some {| naturalWidth := 1000; naturalHeight := 1500 |};
     crop := {| Crop.x := - 10; Crop.y := - 20 |};
     zoom := 2;
     faceYFrac := DEFAULT_FACE_Y_FRACTION |}.

(** A face box of 400 x 480 around (500, 600). *)
Definition sampleFace : Area.t :=
  {| Area.x := 300; Area.y := 360; Area.width := 400; Area.height := 480 |}.

(** ** File names (lines 357-372)

    A JavaScript string is a sequence of UTF-16 code units; [length],
    [slice] and a regular expression without the [u] flag all work on code
    units. *)

Definition JSString : Type := list N.

(** The code units of an ASCII literal. *)
Definition codeUnits (s : string) : JSString :=
  map N_of_ascii (list_ascii_of_string s).

(** The character class of line 361: backslash, slash, colon, asterisk,
    question mark, double quote, less-than, greater-than and bar. *)
Definition isForbidden (c : N) : bool :=
  existsb (N.eqb c) [92; 47; 58; 42; 63; 34; 60; 62; 124]%N.

(** White space and line terminators: what [\s] matches and what [trim]
    strips. *)
Definition isWhiteSpace (c : N) : bool :=
  existsb (N.eqb c)
    [9; 10; 11; 12; 13; 32; 160; 5760; 8232; 8233; 8239; 8287; 12288;
     65279]%N
  || ((8192 <=? c) && (c <=? 8202))%N.

Fixpoint trimStart (s : JSString) : JSString :=
  match s with
  | [] => []
  | c :: s' => if isWhiteSpace c then trimStart s' else s
  end.

Definition trimEnd (s : JSString) : JSString := rev (trimStart (rev s)).

(** [String.prototype.trim] *)
Definition trim (s : JSString) : JSString := trimEnd (trimStart s).

(** Line 361: every code unit of that class becomes an underscore. *)
Definition replaceForbidden (s : JSString) : JSString :=
  map (fun c => if isForbidden c then 95%N else c) s.

(** [n.replace(/\s+/g, ' ')]; [inRun] tells that the code unit before was
    white space, already replaced. *)
Fixpoint collapseFrom (inRun : bool) (s : JSString) : JSString :=
  match s with
  | [] => []
  | c :: s' =>
      if isWhiteSpace c
      then (if inRun then collapseFrom true s'
            else 32%N :: collapseFrom true s')
      else c :: collapseFrom false s'
  end.

Definition collapseSpaces (s : JSString) : JSString := collapseFrom false s.

(** A string is truthy when it is not empty. *)
Definition truthy (s : JSString) : bool :=
  match s with
  | [] => false
  | _ :: _ => true
  end.

(** [sanitizeFileName] (lines 357-367). *)
Definition sanitizeFileName (name fallback : JSString) : JSString :=
  let n := trim (if truthy name then name else fallback) in
  let n := if negb (truthy n) then fallback else n in
  let n := replaceForbidden n in
  let n := collapseSpaces n in
  let n := if (150 <? length n)%nat then firstn 150 n else n in
  n.

(** ASCII lower case; with the [i] flag and without [u], an ASCII letter of
    a pattern matches exactly its two cases. *)
Definition toLowerAscii (c : N) : N :=
  if ((65 <=? c) && (c <=? 90))%N then (c + 32)%N else c.

(** [/\.jpe?g$/i.test(base)] *)
Definition hasJpegExtension (base : JSString) : bool :=
  match map toLowerAscii (rev base) with
  | 103 :: 112 :: 106 :: 46 :: _ => true
  | 103 :: 101 :: 112 :: 106 :: 46 :: _ => true
  | _ => false
  end%N.

(** [finalName] of [onDownload] and [onMobileSave] (lines 371-372 and
    383-384), from the [filename] state and the generated fallback. *)
Definition finalName (filename fallback : JSString) : JSString :=
  let base := sanitizeFileName filename fallback in
  if hasJpegExtension base then base else base ++ codeUnits ".jpg".

(** No two white-space code units in a row. *)
Fixpoint noSpaceRun (s : JSString) : bool :=
  match s with
  | a :: (b :: _) as t =>
      negb (isWhiteSpace a && isWhiteSpace b) && noSpaceRun t
  | _ => true
  end.

(** A name that [sanitizeFileName] has nothing to do to: not empty, no
    white space at either end, no forbidden code unit, no white space other
    than single spaces, at most 150 code units. *)
Definition isCleanName (s : JSString) : bool :=
  truthy s
  && negb (isWhiteSpace (hd 0%N s)) && negb (isWhiteSpace (last s 0%N))
  && forallb (fun c => negb (isForbidden c)) s
  && forallb (fun c => negb (isWhiteSpace c) || (c =? 32)%N) s
  && noSpaceRun s
  && (length s <=? 150)%nat.

(** What holds after a render with an image, a crop and
    [userEditedName = true] issued the estimate number [n], as long as no
    later render comes: the file name is still [fn], and every pending
    callback that carries [n] captured [userEditedName = true]. *)
Definition editedInv {Image : Type} (n : nat) (fn : Filename)
  (st : Estimator Image) : Prop :=
  estimateSeq st = n /\
  filename st = fn /\
  (forall j, In j (pendingJobs st) ->
     (mySeq j <= n)%nat /\ (mySeq j = n -> jobUserEditedName j = true)).

(** An estimate settles and names the file; then the user edits the name,
    and the estimate for the next crop settles. *)
Definition editedThenEstimated : list (Event unit) :=
  [ Render (Some tt) (Some crop1200x1600) false; TimerFires; Settles 0;
    Render (Some tt) (Some crop600x800) true; TimerFires; Settles 0 ].

(** * Facts *)

(** ** Bisection *)

(** The midpoint [(lo + hi) / 2] of a non-empty interval is strictly inside. *)
Lemma midpoint_between (lo hi : Q) :
  lo < hi -> lo < (lo + hi) / 2 /\ (lo + hi) / 2 < hi.
Proof.
  intros Hlt.
  assert (E : (lo + hi) / 2 == (lo + hi) * (1 # 2)) by field.
  rewrite E. split; lra.
Qed.

Lemma bisect_length (fits : Q -> bool) (n : nat) :
  forall lo hi, length (bisect fits n lo hi) = n.
Proof.
  induction n as [|n IH]; intros lo hi; cbn [bisect length].
  - reflexivity.
  - destruct (fits ((lo + hi) / 2)); now rewrite IH.
Qed.

(** Every midpoint visited lies strictly between the initial bounds. *)
Lemma bisect_between (fits : Q -> bool) (n : nat) :
  forall lo hi,
    lo < hi -> Forall (fun v => lo < v /\ v < hi) (bisect fits n lo hi).
Proof.
  induction n as [|n IH]; intros lo hi Hlt; cbn [bisect].
  - constructor.
  - destruct (midpoint_between lo hi Hlt) as [Hl Hh].
    constructor; [now split|].
    destruct (fits ((lo + hi) / 2)).
    + eapply Forall_impl; [|apply IH; exact Hh].
      cbn. intros v [? ?]. split; lra.
    + eapply Forall_impl; [|apply IH; exact Hl].
      cbn. intros v [? ?]. split; lra.
Qed.

Lemma lastFit_none (fits : Q -> bool) (l : list Q) :
  lastFit fits l = None <-> Forall (fun v => fits v = false) l.
Proof.
  induction l as [|v l IH]; cbn [lastFit].
  - split; [constructor | reflexivity].
  - destruct (lastFit fits l) as [u|].
    + split; [discriminate|].
      intros H. inversion H as [|? ? _ Hl]; subst.
      apply IH in Hl. discriminate.
    + destruct (fits v) eqn:Hv.
      * split; [discriminate|]. intros H. inversion H; congruence.
      * split; [|reflexivity]. intros _. constructor; [exact Hv|].
        now apply IH.
Qed.

Lemma lastFit_some (fits : Q -> bool) (l : list Q) (u : Q) :
  lastFit fits l = Some u -> In u l /\ fits u = true.
Proof.
  induction l as [|v l IH]; cbn [lastFit]; [discriminate|].
  destruct (lastFit fits l) as [u'|].
  - intros E. injection E as <-. destruct (IH eq_refl). split; [now right|auto].
  - destruct (fits v) eqn:Hv; [|discriminate].
    intros E. injection E as <-. split; [now left|exact Hv].
Qed.

Lemma lastFit_exists (fits : Q -> bool) (l : list Q) :
  Exists (fun v => fits v = true) l -> exists u, lastFit fits l = Some u.
Proof.
  intros Hex. destruct (lastFit fits l) as [u|] eqn:E; [now exists u|].
  apply lastFit_none in E. apply Exists_exists in Hex as (v & Hin & Hv).
  rewrite Forall_forall in E. specialize (E v Hin). congruence.
Qed.

(** In a bisection trace the last midpoint that fits is also the largest
    one that fits: after a fit the loop only looks above it, after a miss
    only below. *)
Lemma bisect_lastFit_max (fits : Q -> bool) (n : nat) :
  forall lo hi u,
    lo < hi ->
    lastFit fits (bisect fits n lo hi) = Some u ->
    Forall (fun v => fits v = true -> v <= u) (bisect fits n lo hi).
Proof.
  induction n as [|n IH]; intros lo hi u Hlt; cbn [bisect lastFit].
  - constructor.
  - destruct (midpoint_between lo hi Hlt) as [Hl Hh].
    set (m := (lo + hi) / 2) in *.
    destruct (fits m) eqn:Hm.
    + destruct (lastFit fits (bisect fits n m hi)) as [u'|] eqn:E.
      * intros Hu. injection Hu as <-.
        constructor; [|now apply IH].
        intros _. apply lastFit_some in E as [Hin _].
        pose proof (bisect_between fits n m hi Hh) as Hb.
        rewrite Forall_forall in Hb. destruct (Hb _ Hin). lra.
      * intros Hu. injection Hu as <-.
        constructor; [intros _; lra|].
        apply lastFit_none in E.
        eapply Forall_impl; [|exact E]. cbn. intros v Hv Hv'. congruence.
    + destruct (lastFit fits (bisect fits n lo m)) as [u'|] eqn:E;
        [|discriminate].
      intros Hu. injection Hu as <-.
      constructor; [intros Hf; congruence|now apply IH].
Qed.

(** ** Clamping and rounding *)

Lemma clamp_range (t hi : Q) :
  0 <= hi ->
  0 <= JSMath.max 0 (JSMath.min t hi) /\ JSMath.max 0 (JSMath.min t hi) <= hi.
Proof.
  intros Hhi. unfold JSMath.max, JSMath.min.
  destruct (Q.max_spec 0 (Qmin t hi)) as [[H1 H2]|[H1 H2]];
    destruct (Q.min_spec t hi) as [[H3 H4]|[H3 H4]];
    rewrite H2; try rewrite H4 in *; split; lra.
Qed.

Lemma clamp_id (t hi : Q) :
  0 <= t -> t <= hi -> JSMath.max 0 (JSMath.min t hi) == t.
Proof.
  intros H0 Hhi. unfold JSMath.max, JSMath.min.
  destruct (Q.max_spec 0 (Qmin t hi)) as [[H1 H2]|[H1 H2]];
    destruct (Q.min_spec t hi) as [[H3 H4]|[H3 H4]];
    rewrite H2; try rewrite H4 in *; lra.
Qed.

(** [Math.round] of a value that does not exceed an integer does not
    exceed that integer either. *)
Lemma round_le_int (v : Q) (k : Z) :
  v <= inject_Z k -> (JSMath.round v <= k)%Z.
Proof.
  intros Hv. unfold JSMath.round.
  pose proof (Qfloor_le (v + 0.5)) as Hf.
  assert (Hlt : inject_Z (Qfloor (v + 0.5)) < inject_Z (k + 1)).
  { rewrite inject_Z_plus. change (inject_Z 1) with 1. lra. }
  rewrite <- Zlt_Qlt in Hlt. lia.
Qed.

Lemma round_nonneg (v : Q) : 0 <= v -> (0 <= JSMath.round v)%Z.
Proof.
  intros Hv. unfold JSMath.round.
  change 0%Z with (Qfloor (inject_Z 0)).
  apply Qfloor_resp_le. change (inject_Z 0) with 0. lra.
Qed.

Lemma div_by_zoom (a z : Q) :
  0 <= a -> 1 <= z -> 0 <= a / z /\ a / z <= a.
Proof.
  intros Ha Hz. split.
  - apply Qle_shift_div_l; lra.
  - apply Qle_shift_div_r; [lra|]. nra.
Qed.

(** ** Crop geometry *)

Lemma over_TARGET_AR (W : Q) : W / TARGET_AR == W * (4 # 3).
Proof. unfold TARGET_AR, ASPECT_W, ASPECT_H. field. Qed.

(** The zoom-1 view height never exceeds the raster height. *)
Lemma baseH_le_height (W H : Z) :
  baseH (inject_Z W) (inject_Z H) <= inject_Z H.
Proof.
  unfold baseH.
  destruct (Qle_bool (inject_Z W / TARGET_AR) (inject_Z H)) eqn:E.
  - apply Qle_bool_iff in E. rewrite <- Zle_Qle. now apply round_le_int.
  - lra.
Qed.

Lemma baseH_nonneg (W H : Z) :
  (0 <= W)%Z -> (0 <= H)%Z -> 0 <= baseH (inject_Z W) (inject_Z H).
Proof.
  intros HW HH. unfold baseH.
  assert (HWq : 0 <= inject_Z W)
    by (change 0 with (inject_Z 0); now rewrite <- Zle_Qle).
  assert (HHq : 0 <= inject_Z H)
    by (change 0 with (inject_Z 0); now rewrite <- Zle_Qle).
  destruct (Qle_bool (inject_Z W / TARGET_AR) (inject_Z H)).
  - change 0 with (inject_Z 0). rewrite <- Zle_Qle. apply round_nonneg.
    rewrite over_TARGET_AR. lra.
  - exact HHq.
Qed.

Lemma inject_Z_pos (k : Z) : (0 < k)%Z -> 0 < inject_Z k.
Proof. intros Hk. change 0 with (inject_Z 0). now rewrite <- Zlt_Qlt. Qed.

(** The view top that [nudgeFaceY] computes is clamped into
    [[0, H - viewH]], which is a non-empty interval once [zoom >= 1]. *)
Lemma nudgeNewTop_range (img : HTMLImageElement) (st : PageState) (v : Q) :
  (0 <= naturalWidth img)%Z -> (0 <= naturalHeight img)%Z -> 1 <= zoom st ->
  let H := inject_Z (naturalHeight img) in
  let viewH := baseH (inject_Z (naturalWidth img)) H / zoom st in
  0 <= nudgeNewTop img st v /\ nudgeNewTop img st v <= H - viewH.
Proof.
  intros HW HH Hz H viewH. unfold nudgeNewTop. fold H. fold viewH.
  apply clamp_range.
  pose proof (baseH_le_height (naturalWidth img) (naturalHeight img)) as Hle.
  pose proof (baseH_nonneg _ _ HW HH) as Hnn.
  destruct (div_by_zoom _ _ Hnn Hz) as [_ Hd].
  fold H in Hle, Hd. fold viewH in Hd. lra.
Qed.

(** Reading the view top back from the crop offset that [nudgeFaceY]
    stores gives [newTop] again. *)
Lemma nudgeFaceY_stores_newTop (img : HTMLImageElement) (st : PageState)
  (v : Q) :
  imgEl st = Some img -> (0 < naturalHeight img)%Z ->
  Area.y (viewRect img (nudgeFaceY st v)) == nudgeNewTop img st v.
Proof.
  intros Himg HH. unfold nudgeFaceY, viewRect. rewrite Himg. cbn.
  pose proof (inject_Z_pos _ HH). field. lra.
Qed.

(** C6. For every new fraction [v], every crop offset, every zoom [>= 1] and
    every loaded raster, the view top that [nudgeFaceY] computes lies in
    [[0, height - viewHeight]] with [viewHeight = baseHeight / zoom]; on a
    raster of positive height it is also the top that the stored crop
    offset denotes. *)
Theorem nudgeFaceY_top_within_raster :
  forall (st : PageState) (img : HTMLImageElement) (v : Q),
    imgEl st = Some img ->
    (0 <= naturalWidth img)%Z -> (0 <= naturalHeight img)%Z ->
    1 <= zoom st ->
    let H := inject_Z (naturalHeight img) in
    let viewH := baseH (inject_Z (naturalWidth img)) H / zoom st in
    let newTop := nudgeNewTop img st v in
    0 <= newTop /\ newTop <= H - viewH /\
    ((0 < naturalHeight img)%Z ->
     Area.y (viewRect img (nudgeFaceY st v)) == newTop).
Proof.
  intros st img v Himg HW HH Hz H viewH newTop.
  destruct (nudgeNewTop_range img st v HW HH Hz) as [H0 H1].
  split; [exact H0|]. split; [exact H1|].
  intros Hpos. now apply nudgeFaceY_stores_newTop.
Qed.

Lemma nudgeFaceY_top_within_raster_witness :
  let img := {| naturalWidth := 1000; naturalHeight := 1500 |} in
  let newTop := nudgeNewTop img samplePage 0.44 in
  0 <= newTop /\ newTop <= 1500 - baseH 1000 1500 / 2 /\
  Area.y (viewRect img (nudgeFaceY samplePage 0.44)) == newTop.
Proof.
  intros img newTop.
  destruct (nudgeFaceY_top_within_raster samplePage img 0.44)
    as (H0 & H1 & Htop);
    [reflexivity | discriminate | discriminate | discriminate |].
  split; [exact H0|]. split; [exact H1|]. apply Htop. reflexivity.
Defined.



(** C10. Nudging to the fraction already in force is the identity on the
    crop offset: if the new fraction equals [faceYFrac] and the current view
    top lies in [[0, height - viewHeight]], then [crop.x] and [crop.y] after
    the call equal their values before it (exact arithmetic, raster of
    positive width and height). *)
Theorem nudgeFaceY_same_fraction_identity :
  forall (st : PageState),
    (forall img, imgEl st = Some img ->
       (0 < naturalWidth img)%Z /\ (0 < naturalHeight img)%Z /\
       0 <= Area.y (viewRect img st) /\
       Area.y (viewRect img st)
         <= inject_Z (naturalHeight img) - Area.height (viewRect img st)) ->
    Crop.x (crop (nudgeFaceY st (faceYFrac st))) == Crop.x (crop st) /\
    Crop.y (crop (nudgeFaceY st (faceYFrac st))) == Crop.y (crop st).
Proof.
  intros st Hst. unfold nudgeFaceY.
  destruct (imgEl st) as [img|] eqn:Himg; cbn; [|split; reflexivity].
  destruct (Hst img eq_refl) as (HW & HH & Htop0 & Htop1).
  pose proof (inject_Z_pos _ HW) as HWq.
  pose proof (inject_Z_pos _ HH) as HHq.
  split; [field; lra|].
  unfold viewRect in Htop0, Htop1. cbn in Htop0, Htop1.
  unfold nudgeNewTop.
  set (H := inject_Z (naturalHeight img)) in *.
  set (viewH := baseH (inject_Z (naturalWidth img)) H / zoom st) in *.
  set (t := - Crop.y (crop st) * 0.01 * H + faceYFrac st * viewH
            - faceYFrac st * viewH).
  assert (Et : t == - Crop.y (crop st) / 100 * H) by (unfold t; field).
  assert (Ec : JSMath.max 0 (JSMath.min t (H - viewH)) == t).
  { apply clamp_id; rewrite Et; assumption. }
  rewrite Ec, Et. field. lra.
Qed.

Lemma nudgeFaceY_same_fraction_identity_witness :
  Crop.x (crop (nudgeFaceY samplePage (faceYFrac samplePage))) == - 10 /\
  Crop.y (crop (nudgeFaceY samplePage (faceYFrac samplePage))) == - 5.
Proof.
  apply (nudgeFaceY_same_fraction_identity samplePage).
  intros img E. injection E as <-.
  repeat split; try reflexivity; vm_compute; discriminate.
Defined.

(** What [autoAlign] does guarantee on a raster of positive size, with or
    without a face box: a zoom of at least 1, the exact target aspect
    ratio, a view inside the raster vertically, a non-negative left edge,
    and a view inside the raster horizontally whenever the view is not
    wider than the raster. *)
Lemma autoAlign_view_rect (st : PageState) (img : HTMLImageElement)
  (face : DetectBox) :
  imgEl st = Some img ->
  (0 < naturalWidth img)%Z -> (0 < naturalHeight img)%Z ->
  let r := viewRect img (autoAlign st face) in
  1 <= zoom (autoAlign st face) /\
  Area.width r == Area.height r * TARGET_AR /\
  0 <= Area.y r /\
  Area.y r + Area.height r <= inject_Z (naturalHeight img) /\
  0 <= Area.x r /\
  (Area.width r <= inject_Z (naturalWidth img) ->
   Area.x r + Area.width r <= inject_Z (naturalWidth img)).
Proof.
  intros Himg HW HH.
  pose proof (inject_Z_pos _ HW) as HWq.
  pose proof (inject_Z_pos _ HH) as HHq.
  pose proof (baseH_le_height (naturalWidth img) (naturalHeight img)) as Hle.
  assert (Hnn : 0 <= baseH (inject_Z (naturalWidth img))
                       (inject_Z (naturalHeight img)))
    by (apply baseH_nonneg; lia).
  unfold autoAlign. rewrite Himg. unfold viewRect.
  cbn [zoom crop Crop.x Crop.y Area.x Area.y Area.width Area.height].
  set (W := inject_Z (naturalWidth img)) in *.
  set (H := inject_Z (naturalHeight img)) in *.
  set (z := JSMath.max 1 _).
  assert (Hz : 1 <= z) by apply Q.le_max_l.
  destruct (div_by_zoom _ _ Hnn Hz) as [Hv0 Hv1].
  set (viewH := baseH W H / z) in *.
  set (left := JSMath.max 0 (JSMath.min _ (W - viewH * TARGET_AR))).
  set (top := JSMath.max 0 (JSMath.min _ (H - viewH))).
  assert (Ex : - (- (left / W) * 100) / 100 * W == left) by (field; lra).
  assert (Ey : - (- (top / H) * 100) / 100 * H == top) by (field; lra).
  rewrite Ex, Ey.
  assert (Htop : 0 <= top /\ top <= H - viewH) by (apply clamp_range; lra).
  assert (Hleft : 0 <= left) by apply Q.le_max_l.
  repeat split; try lra.
  intros Hfit.
  assert (Hl : 0 <= left /\ left <= W - viewH * TARGET_AR)
    by (apply clamp_range; lra).
  lra.
Qed.

(** A raster of 1000 x 1000 with no face: [1000 / 0.75 > 1000], so
    [baseH] is the raster height, the zoom is 1 and the view is the
    centred 750 x 1000 column. *)
Example autoAlign_1000x1000 :
  let img := {| naturalWidth := 1000; naturalHeight := 1000 |} in
  let st := {| imgEl := Some img;
               crop := {| Crop.x := 0; Crop.y := 0 |};
               zoom := 1;
               faceYFrac := DEFAULT_FACE_Y_FRACTION |} in
  let r := viewRect img (autoAlign st None) in
  baseH 1000 1000 == 1000 /\ zoom (autoAlign st None) == 1 /\
  Area.x r == 125 /\ Area.y r == 0 /\
  Area.width r == 750 /\ Area.height r == 1000.
Proof. cbv zeta. repeat split; reflexivity. Qed.

(** C4 at the raster 800 x 1200 with no face: line 140 rounds
    [800 / 0.75 = 1066.67] up to [baseH = 1067], the zoom is 1, so
    [viewW = 1067 * 0.75 = 800.25] and line 164 clamps [left] to 0; the
    view rectangle is [[0, 800.25] x [133, 1200]], a quarter of a pixel
    wider than the raster it was meant to stay inside. *)
Theorem autoAlign_view_wider_than_raster :
  let img := {| naturalWidth := 800; naturalHeight := 1200 |} in
  let st := {| imgEl := Some img;
               crop := {| Crop.x := 0; Crop.y := 0 |};
               zoom := 1;
               faceYFrac := DEFAULT_FACE_Y_FRACTION |} in
  let r := viewRect img (autoAlign st None) in
  zoom (autoAlign st None) == 1 /\
  Area.x r == 0 /\ Area.y r == 133 /\
  Area.width r == 800.25 /\ Area.height r == 1067 /\
  ~ insideRaster img r.
Proof.
  cbv zeta. repeat split; try reflexivity.
  intros (_ & Hright & _). vm_compute in Hright. now apply Hright.
Qed.

(** ** The quality search *)

Section EncoderFacts.

Context {Image Blob : Type}.
Variable size : Blob -> Z.
Variable makeJpegBlob : Canvas Image -> Q -> Blob.

(** The loop leaves in [best] the encoding at the last midpoint that fits,
    and does not touch [best] when none fits. *)
Lemma qualityLoop_lastFit (c : Canvas Image) (n : nat) :
  forall lo hi best,
    qualityLoop size makeJpegBlob c n lo hi best
    = match lastFit (fitsAt size makeJpegBlob c)
              (bisect (fitsAt size makeJpegBlob c) n lo hi)
      with
      | Some v => Some {| blob := makeJpegBlob c v; q := v |}
      | None => best
      end.
Proof.
  induction n as [|n IH]; intros lo hi best; [reflexivity|].
  cbn [qualityLoop bisect lastFit].
  change (size (makeJpegBlob c ((lo + hi) / 2)) <=? MAX_BYTES)%Z
    with (fitsAt size makeJpegBlob c ((lo + hi) / 2)).
  destruct (fitsAt size makeJpegBlob c ((lo + hi) / 2)) eqn:E; rewrite IH;
    match goal with
    | |- context [lastFit ?f ?l] => destruct (lastFit f l)
    end; reflexivity.
Qed.

(** The two ways out of [encodeJpegUnder2MB]. *)
Lemma encodeJpegUnder2MB_cases (c : Canvas Image) :
  (exists v,
      lastFit (fitsAt size makeJpegBlob c)
        (midpointQualities size makeJpegBlob c) = Some v /\
      encodeJpegUnder2MB size makeJpegBlob c
      = Some {| blob := makeJpegBlob c v; q := v |})
  \/ (lastFit (fitsAt size makeJpegBlob c)
        (midpointQualities size makeJpegBlob c) = None /\
      qualityLoop size makeJpegBlob c 8 0.5 0.95 None = None /\
      encodeJpegUnder2MB size makeJpegBlob c
      = Some {| blob := makeJpegBlob c 0.5; q := 0.5 |}).
Proof.
  unfold encodeJpegUnder2MB, midpointQualities.
  rewrite qualityLoop_lastFit.
  destruct (lastFit (fitsAt size makeJpegBlob c)
              (bisect (fitsAt size makeJpegBlob c) 8 0.5 0.95)) as [v|].
  - left. exists v. now split.
  - right. repeat split.
Qed.

Lemma encodeJpegUnder2MB_total (c : Canvas Image) :
  exists r, encodeJpegUnder2MB size makeJpegBlob c = Some r.
Proof.
  destruct (encodeJpegUnder2MB_cases c) as [(v & _ & E)|(_ & _ & E)];
    rewrite E; eauto.
Qed.

Lemma midpointQualities_between (c : Canvas Image) :
  Forall (fun v => 0.5 < v /\ v < 0.95) (midpointQualities size makeJpegBlob c).
Proof. apply bisect_between. reflexivity. Qed.

Lemma fitsAt_true (c : Canvas Image) (v : Q) :
  fitsAt size makeJpegBlob c v = true
  <-> (size (makeJpegBlob c v) <= MAX_BYTES)%Z.
Proof. apply Z.leb_le. Qed.

Lemma fitsAt_false (c : Canvas Image) (v : Q) :
  fitsAt size makeJpegBlob c v = false
  <-> (MAX_BYTES < size (makeJpegBlob c v))%Z.
Proof. apply Z.leb_gt. Qed.

(** C1. For every canvas, [encodeJpegUnder2MB] returns a blob-quality pair
    (never null, no abrupt completion, the encoder being total); and if one
    of the 8 sampled midpoint qualities encodes to at most [MAX_BYTES], the
    returned blob has at most [MAX_BYTES] bytes. *)
Theorem encodeJpegUnder2MB_within_budget :
  forall c : Canvas Image,
    exists r,
      encodeJpegUnder2MB size makeJpegBlob c = Some r /\
      (Exists (fun v => (size (makeJpegBlob c v) <= MAX_BYTES)%Z)
         (midpointQualities size makeJpegBlob c) ->
       (size (blob r) <= MAX_BYTES)%Z).
Proof.
  intros c.
  destruct (encodeJpegUnder2MB_cases c) as [(v & Hv & E)|(Hn & _ & E)];
    rewrite E; eexists; (split; [reflexivity|]); intros Hex.
  - apply lastFit_some in Hv as [_ Hv]. cbn. now apply fitsAt_true.
  - apply lastFit_none in Hn. exfalso.
    apply Exists_exists in Hex as (v & Hin & Hv).
    rewrite Forall_forall in Hn. specialize (Hn v Hin).
    apply fitsAt_false in Hn. lia.
Qed.

(** C9. The quality that [encodeJpegUnder2MB] returns lies in
    [[0.5, 0.95)]; it is 0.5 exactly when none of the 8 sampled midpoint
    qualities encodes within the budget, that is, exactly when the loop
    leaves [best] null and the fallback of lines 228-231 runs; and each of
    the 8 sampled midpoints is strictly between 0.5 and 0.95. *)
Theorem encodeJpegUnder2MB_quality_range :
  forall c : Canvas Image,
    exists r,
      encodeJpegUnder2MB size makeJpegBlob c = Some r /\
      0.5 <= q r /\ q r < 0.95 /\
      (q r == 0.5 <->
       Forall (fun v => (MAX_BYTES < size (makeJpegBlob c v))%Z)
         (midpointQualities size makeJpegBlob c)) /\
      (q r == 0.5 <->
       qualityLoop size makeJpegBlob c 8 0.5 0.95 None = None) /\
      length (midpointQualities size makeJpegBlob c) = 8%nat /\
      Forall (fun v => 0.5 < v /\ v < 0.95)
        (midpointQualities size makeJpegBlob c).
Proof.
  intros c. pose proof (midpointQualities_between c) as Hb.
  assert (Hlen : length (midpointQualities size makeJpegBlob c) = 8%nat)
    by apply bisect_length.
  destruct (encodeJpegUnder2MB_cases c) as [(v & Hv & E)|(Hn & Hloop & E)];
    rewrite E; eexists; (split; [reflexivity|]); cbn [q].
  - pose proof Hv as Hv'. apply lastFit_some in Hv' as [Hin Hfit].
    rewrite Forall_forall in Hb. destruct (Hb v Hin) as [Hlo Hhi].
    assert (Hne : ~ v == 0.5) by (intros Heq; rewrite Heq in Hlo; lra).
    split; [lra|]. split; [exact Hhi|].
    split; [|split; [|split; [exact Hlen|now apply Forall_forall]]].
    + split; [intros Heq; contradiction|].
      intros Hall. rewrite Forall_forall in Hall.
      specialize (Hall v Hin). apply fitsAt_true in Hfit. lia.
    + split; [intros Heq; contradiction|].
      intros Hnone. exfalso.
      unfold midpointQualities in Hv.
      rewrite qualityLoop_lastFit, Hv in Hnone. discriminate.
  - apply lastFit_none in Hn.
    split; [lra|]. split; [reflexivity|].
    split; [|split; [|split; [exact Hlen|exact Hb]]].
    + split; [|reflexivity].
      intros _. eapply Forall_impl; [|exact Hn].
      cbn. intros v Hv. now apply fitsAt_false.
    + split; [now intros _|reflexivity].
Qed.

(** ** The resolution search *)

Lemma scaleFits_eq (image : Image) (cropPx : Area.t) (s : Q) (enc : Enc Blob) :
  encodeJpegUnder2MB size makeJpegBlob (canvasAt image cropPx s) = Some enc ->
  scaleFits size makeJpegBlob image cropPx s
  = (size (blob enc) <=? MAX_BYTES)%Z.
Proof. intros E. unfold scaleFits. now rewrite E. Qed.

Lemma sizedAt_eq (image : Image) (cropPx : Area.t) (s : Q) (enc : Enc Blob) :
  encodeJpegUnder2MB size makeJpegBlob (canvasAt image cropPx s) = Some enc ->
  sizedAt size makeJpegBlob image cropPx s
  = Some {| sblob := blob enc; sq := q enc;
            w := cwidth (canvasAt image cropPx s);
            h := cheight (canvasAt image cropPx s) |}.
Proof. intros E. unfold sizedAt. now rewrite E. Qed.

Lemma sizedAt_total (image : Image) (cropPx : Area.t) (s : Q) :
  exists r,
    sizedAt size makeJpegBlob image cropPx s = Some r /\
    w r = Z.max 1
            (JSMath.floor (inject_Z (JSMath.floor (Area.width cropPx)) * s)) /\
    h r = Z.max 1
            (JSMath.floor (inject_Z (JSMath.floor (Area.height cropPx)) * s)).
Proof.
  destruct (encodeJpegUnder2MB_total (canvasAt image cropPx s)) as [enc E].
  rewrite (sizedAt_eq _ _ _ _ E). eexists. split; [reflexivity|].
  split; reflexivity.
Qed.

(** The outer loop completes normally and leaves in [best] the record of
    the last midpoint scale that fits; [best] is untouched when none fits. *)
Lemma sizeLoop_lastFit (image : Image) (cropPx : Area.t) (n : nat) :
  forall lo hi best,
    sizeLoop size makeJpegBlob image cropPx
      (JSMath.floor (Area.width cropPx)) (JSMath.floor (Area.height cropPx))
      n lo hi best
    = Some
        match lastFit (scaleFits size makeJpegBlob image cropPx)
                (bisect (scaleFits size makeJpegBlob image cropPx) n lo hi)
        with
        | Some s => sizedAt size makeJpegBlob image cropPx s
        | None => best
        end.
Proof.
  induction n as [|n IH]; intros lo hi best; [reflexivity|].
  cbn [sizeLoop bisect lastFit].
  set (m := (lo + hi) / 2).
  destruct (encodeJpegUnder2MB_total (canvasAt image cropPx m)) as [enc E].
  rewrite (scaleFits_eq _ _ _ _ E).
  change (drawImage image cropPx _ _) with (canvasAt image cropPx m).
  rewrite E. cbn [bind].
  destruct (size (blob enc) <=? MAX_BYTES)%Z; rewrite IH;
    match goal with
    | |- context [lastFit ?f ?l] => destruct (lastFit f l)
    end; try reflexivity.
  now rewrite (sizedAt_eq _ _ _ _ E).
Qed.

Lemma midpointScales_between (image : Image) (cropPx : Area.t) :
  Forall (fun s => 0.2 < s /\ s < 1.0)
    (midpointScales size makeJpegBlob image cropPx).
Proof. apply bisect_between. reflexivity. Qed.

(** The two ways out of [findBestSizeAndEncode]. *)
Lemma findBestSizeAndEncode_cases (image : Image) (cropPx : Area.t) :
  (exists s,
      lastFit (scaleFits size makeJpegBlob image cropPx)
        (midpointScales size makeJpegBlob image cropPx) = Some s /\
      findBestSizeAndEncode size makeJpegBlob image cropPx
      = sizedAt size makeJpegBlob image cropPx s)
  \/ (lastFit (scaleFits size makeJpegBlob image cropPx)
        (midpointScales size makeJpegBlob image cropPx) = None /\
      let targetW := Z.min 800 (JSMath.floor (Area.width cropPx)) in
      let targetH :=
        JSMath.round (inject_Z targetW * (ASPECT_H / ASPECT_W)) in
      exists enc,
        encodeJpegUnder2MB size makeJpegBlob
          (drawImage image cropPx targetW targetH) = Some enc /\
        findBestSizeAndEncode size makeJpegBlob image cropPx
        = Some {| sblob := blob enc; sq := q enc;
                  w := targetW; h := targetH |}).
Proof.
  unfold findBestSizeAndEncode, midpointScales.
  rewrite sizeLoop_lastFit. cbn [bind].
  destruct (lastFit _ _) as [s|] eqn:E.
  - left. exists s. split; [reflexivity|].
    destruct (sizedAt_total image cropPx s) as (r & Hr & _).
    now rewrite Hr.
  - right. split; [reflexivity|]. cbv zeta.
    destruct (encodeJpegUnder2MB_total
                (drawImage image cropPx
                   (Z.min 800 (JSMath.floor (Area.width cropPx)))
                   (JSMath.round
                      (inject_Z (Z.min 800 (JSMath.floor (Area.width cropPx)))
                       * (ASPECT_H / ASPECT_W))))) as [enc Henc].
    exists enc. split; [exact Henc|]. now rewrite Henc.
Qed.


Lemma scaled_side_le (m : Z) (s : Q) :
  (1 <= m)%Z -> 0 < s -> s < 1 ->
  (Z.max 1 (JSMath.floor (inject_Z m * s)) <= m)%Z.
Proof.
  intros Hm Hs0 Hs1. apply Z.max_lub; [exact Hm|].
  unfold JSMath.floor. rewrite <- (Qfloor_Z m) at 2.
  apply Qfloor_resp_le.
  assert (0 < inject_Z m) by (apply inject_Z_pos; lia). nra.
Qed.

Lemma floor_ge_1 (v : Q) : 1 <= v -> (1 <= JSMath.floor v)%Z.
Proof.
  intros Hv. unfold JSMath.floor. change 1%Z with (Qfloor (inject_Z 1)).
  now apply Qfloor_resp_le.
Qed.

(** When nothing that the search tries is within budget, no sampled scale
    passes the test of line 259. *)
Lemma neverFits_no_scale (image : Image) (cropPx : Area.t) :
  neverFits size makeJpegBlob image cropPx ->
  Forall (fun s => scaleFits size makeJpegBlob image cropPx s = false)
    (midpointScales size makeJpegBlob image cropPx).
Proof.
  unfold neverFits. apply Forall_impl. intros s Hs.
  rewrite Forall_forall in Hs. unfold triedQualities in Hs.
  destruct (encodeJpegUnder2MB_cases (canvasAt image cropPx s))
    as [(v & Hv & E)|(_ & _ & E)];
    rewrite (scaleFits_eq _ _ _ _ E); cbn [blob]; apply Z.leb_gt.
  - apply lastFit_some in Hv as [Hin _]. apply Hs, in_or_app. now left.
  - apply Hs, in_or_app. right. now left.
Qed.

(** The fallback branch of lines 268-279. *)
Lemma findBestSizeAndEncode_fallback (image : Image) (cropPx : Area.t) :
  neverFits size makeJpegBlob image cropPx ->
  exists r,
    findBestSizeAndEncode size makeJpegBlob image cropPx = Some r /\
    w r = Z.min 800 (JSMath.floor (Area.width cropPx)) /\
    (w r <= 800)%Z /\
    h r = JSMath.round (inject_Z (w r) * (ASPECT_H / ASPECT_W)) /\
    encodeJpegUnder2MB size makeJpegBlob (drawImage image cropPx (w r) (h r))
    = Some {| blob := sblob r; q := sq r |}.
Proof.
  intros Hnever. apply neverFits_no_scale, lastFit_none in Hnever.
  destruct (findBestSizeAndEncode_cases image cropPx)
    as [(s & Hs & _)|(_ & enc & Henc & E)]; [congruence|].
  rewrite E. eexists. split; [reflexivity|]. cbn [w h sblob sq].
  repeat split; [apply Z.le_min_l|].
  rewrite Henc. now destruct enc.
Qed.

(** C3, as the code has it.  For a crop region at least one pixel wide and
    high, the result is never wider than the crop region; and it is never
    higher than the crop region when some sampled scale fits the budget, or
    when the height that the fallback derives from the 3:4 ratio,
    [round(min(800, floor(width)) * 4/3)], does not exceed the crop's
    height (an exact 3:4 crop, for one). *)
Theorem findBestSizeAndEncode_no_upscaling :
  forall (image : Image) (cropPx : Area.t),
    1 <= Area.width cropPx -> 1 <= Area.height cropPx ->
    exists r,
      findBestSizeAndEncode size makeJpegBlob image cropPx = Some r /\
      inject_Z (w r) <= Area.width cropPx /\
      (Exists (fun s => scaleFits size makeJpegBlob image cropPx s = true)
         (midpointScales size makeJpegBlob image cropPx)
       \/ (JSMath.round
             (inject_Z (Z.min 800 (JSMath.floor (Area.width cropPx)))
              * (ASPECT_H / ASPECT_W))
           <= JSMath.floor (Area.height cropPx))%Z ->
       inject_Z (h r) <= Area.height cropPx).
Proof.
  intros image cropPx HW HH.
  pose proof (floor_ge_1 _ HW) as HmW. pose proof (floor_ge_1 _ HH) as HmH.
  pose proof (Qfloor_le (Area.width cropPx)) as HfW.
  pose proof (Qfloor_le (Area.height cropPx)) as HfH.
  fold (JSMath.floor (Area.width cropPx)) in HfW.
  fold (JSMath.floor (Area.height cropPx)) in HfH.
  destruct (findBestSizeAndEncode_cases image cropPx)
    as [(s & Hs & E)|(Hn & enc & _ & E)].
  - destruct (sizedAt_total image cropPx s) as (r & Hr & Hw & Hh).
    exists r. rewrite E. split; [exact Hr|].
    apply lastFit_some in Hs as [Hin _].
    pose proof (midpointScales_between image cropPx) as Hb.
    rewrite Forall_forall in Hb. destruct (Hb s Hin) as [Hlo Hhi].
    assert (Hs0 : 0 < s) by lra. assert (Hs1 : s < 1) by lra.
    pose proof (scaled_side_le _ s HmW Hs0 Hs1) as HwW.
    pose proof (scaled_side_le _ s HmH Hs0 Hs1) as HhH.
    rewrite <- Hw in HwW. rewrite <- Hh in HhH.
    rewrite Zle_Qle in HwW, HhH. split; [lra|intros _; lra].
  - rewrite E. eexists. split; [reflexivity|]. cbn [w h].
    split.
    + pose proof (Z.le_min_r 800 (JSMath.floor (Area.width cropPx))) as Hm.
      rewrite Zle_Qle in Hm. lra.
    + intros [Hex|Hfit].
      * apply lastFit_exists in Hex as [u Hu]. congruence.
      * rewrite Zle_Qle in Hfit. lra.
Qed.

End EncoderFacts.

(** ** The searches on sample inputs *)

(** C5. When the encoder is over budget at every sampled scale and every
    quality tried there, [findBestSizeAndEncode] completes normally through
    its fallback branch: the result is not null, its width is
    [min(800, floor(crop width))], at most 800, its height is that width
    times 4/3, rounded, and its blob and quality are what
    [encodeJpegUnder2MB] returns for the canvas of that size.  That blob may
    exceed the budget: for a 1200 x 1600 crop and an encoder that always
    produces 3 MiB the result is 800 x 1067 and 3 MiB large. *)
Theorem findBestSizeAndEncode_last_resort :
  (forall (Image Blob : Type) (size : Blob -> Z)
          (makeJpegBlob : Canvas Image -> Q -> Blob)
          (image : Image) (cropPx : Area.t),
      neverFits size makeJpegBlob image cropPx ->
      exists r,
        findBestSizeAndEncode size makeJpegBlob image cropPx = Some r /\
        w r = Z.min 800 (JSMath.floor (Area.width cropPx)) /\
        (w r <= 800)%Z /\
        h r = JSMath.round (inject_Z (w r) * (ASPECT_H / ASPECT_W)) /\
        encodeJpegUnder2MB size makeJpegBlob
          (drawImage image cropPx (w r) (h r))
        = Some {| blob := sblob r; q := sq r |}) /\
  (exists r,
      findBestSizeAndEncode (fun b : Z => b) overBudgetEncoder tt
        crop1200x1600 = Some r /\
      w r = 800%Z /\ h r = 1067%Z /\ (MAX_BYTES < sblob r)%Z).
Proof.
  split.
  - intros Image Blob size makeJpegBlob image cropPx.
    apply findBestSizeAndEncode_fallback.
  - eexists. split; [vm_compute; reflexivity|]. cbn [w h sblob].
    repeat split.
Qed.

Lemma overBudgetEncoder_neverFits (cropPx : Area.t) :
  neverFits (fun b : Z => b) overBudgetEncoder tt cropPx.
Proof.
  unfold neverFits. apply Forall_forall. intros s _.
  apply Forall_forall. intros v _. reflexivity.
Qed.

Lemma findBestSizeAndEncode_last_resort_witness :
  exists r,
    findBestSizeAndEncode (fun b : Z => b) overBudgetEncoder tt
      crop1200x1600 = Some r /\
    w r = Z.min 800 (JSMath.floor (Area.width crop1200x1600)) /\
    (w r <= 800)%Z /\
    h r = JSMath.round (inject_Z (w r) * (ASPECT_H / ASPECT_W)) /\
    encodeJpegUnder2MB (fun b : Z => b) overBudgetEncoder
      (drawImage tt crop1200x1600 (w r) (h r))
    = Some {| blob := sblob r; q := sq r |}.
Proof.
  apply (proj1 findBestSizeAndEncode_last_resort).
  apply overBudgetEncoder_neverFits.
Defined.

(** The fallback quality counts among the qualities tried: on the crop
    1200 x 1600 with [sampleEncoder], no midpoint quality fits the canvas at
    scale 273/320, yet the scale passes the test of line 259 through the
    encoding at quality 0.5, and the search returns that canvas and not the
    fallback size. *)
Example fallback_quality_decides_a_scale :
  let c := canvasAt tt crop1200x1600 (273 # 320) in
  forallb (fun v => negb (fitsAt (fun b : Z => b) sampleEncoder c v))
    (midpointQualities (fun b : Z => b) sampleEncoder c) = true /\
  scaleFits (fun b : Z => b) sampleEncoder tt crop1200x1600 (273 # 320)
  = true /\
  findBestSizeAndEncode (fun b : Z => b) sampleEncoder tt crop1200x1600
  = Some {| sblob := 2094592%Z; sq := 0.5; w := 1023; h := 1365 |}.
Proof. cbv zeta. repeat split; vm_compute; reflexivity. Qed.

(** C3 as stated fails twice.  In the fallback branch the height comes
    from the 3:4 ratio and not from the crop: a crop of 800 x 1000 that
    never fits comes back 800 x 1067.  And a side is never less than one
    pixel: a crop of 0.5 x 0.5 comes back 1 x 1. *)
Lemma findBestSizeAndEncode_upscales :
  (exists r,
      findBestSizeAndEncode (fun b : Z => b) overBudgetEncoder tt
        crop800x1000 = Some r /\
      h r = 1067%Z /\
      ~ inject_Z (h r) <= Area.height crop800x1000) /\
  (exists r,
      findBestSizeAndEncode (fun b : Z => b) oneByteEncoder tt
        cropHalfPixel = Some r /\
      w r = 1%Z /\
      ~ inject_Z (w r) <= Area.width cropHalfPixel).
Proof.
  split; eexists; (split; [vm_compute; reflexivity|]); cbn [w h];
    (split; [reflexivity|]); intros Hle; vm_compute in Hle; now apply Hle.
Qed.

Lemma findBestSizeAndEncode_no_upscaling_witness :
  exists r,
    findBestSizeAndEncode (fun b : Z => b) sampleEncoder tt crop1200x1600
    = Some r /\
    inject_Z (w r) <= 1200 /\ inject_Z (h r) <= 1600.
Proof.
  destruct (findBestSizeAndEncode_no_upscaling (fun b : Z => b)
              sampleEncoder tt crop1200x1600) as (r & E & Hw & Hh);
    [discriminate | discriminate |].
  exists r. split; [exact E|]. split; [exact Hw|].
  apply Hh. right. vm_compute. discriminate.
Defined.

Lemma Exists_of_existsb {A : Type} (p : A -> bool) (P : A -> Prop)
  (l : list A) :
  (forall a, p a = true -> P a) -> existsb p l = true -> Exists P l.
Proof.
  intros Hp Hex. apply existsb_exists in Hex as (a & Hin & Ha).
  apply Exists_exists. exists a. split; [exact Hin|now apply Hp].
Qed.

Lemma encodeJpegUnder2MB_within_budget_witness :
  let c := drawImage tt crop1200x1600 1020 1360 in
  exists r,
    encodeJpegUnder2MB (fun b : Z => b) sampleEncoder c = Some r /\
    (r.(blob) <= MAX_BYTES)%Z.
Proof.
  intros c.
  destruct (encodeJpegUnder2MB_within_budget (fun b : Z => b)
              sampleEncoder c) as (r & E & Hfit).
  exists r. split; [exact E|]. apply Hfit.
  apply (Exists_of_existsb (fitsAt (fun b : Z => b) sampleEncoder c)).
  - intros v Hv. now apply Z.leb_le.
  - vm_compute. reflexivity.
Defined.


(** ** Supersession of preview estimates *)

Lemma issuedTags_app (l1 l2 : list Obs) :
  issuedTags (l1 ++ l2) = issuedTags l1 ++ issuedTags l2.
Proof.
  induction l1 as [|o l1 IH]; [reflexivity|].
  destruct o; cbn; now rewrite IH.
Qed.

Lemma displayed_app (l1 l2 : list Obs) :
  forall d0, displayed d0 (l1 ++ l2) = displayed (displayed d0 l1) l2.
Proof.
  induction l1 as [|o l1 IH]; intros d0; [reflexivity|].
  destruct o; cbn; apply IH.
Qed.

Lemma last_seq (n : nat) : last (seq 1 n) 0%nat = n.
Proof.
  destruct n as [|n]; [reflexivity|].
  rewrite seq_S. now rewrite last_last.
Qed.

(** A prefix of [a, a+1, ...] is [a, a+1, ...] again, and the element
    after a prefix of length [k] is [a + k]. *)
Lemma seq_prefix (l1 l2 : list nat) :
  forall a n, l1 ++ l2 = seq a n -> l1 = seq a (length l1).
Proof.
  induction l1 as [|x l1 IH]; intros a n E; [reflexivity|].
  destruct n as [|n]; [discriminate|].
  cbn in E. injection E as -> E. cbn. f_equal. now apply (IH (S a) n).
Qed.

Lemma seq_middle (l1 l2 : list nat) (x : nat) :
  forall a n, l1 ++ x :: l2 = seq a n -> x = (a + length l1)%nat.
Proof.
  induction l1 as [|y l1 IH]; intros a n E;
    (destruct n as [|n]; [discriminate|]); cbn in E; injection E as E1 E2.
  - cbn. lia.
  - apply IH in E2. cbn. lia.
Qed.

(** Splitting a list that ends in [x] around one of its elements. *)
Lemma snoc_split {A : Type} (l pre post : list A) (x a : A) :
  l ++ [x] = pre ++ a :: post ->
  (post = [] /\ a = x /\ pre = l)
  \/ (exists post', post = post' ++ [x] /\ l = pre ++ a :: post').
Proof.
  destruct post as [|p post'] using rev_ind.
  - intros E. apply app_inj_tail in E as [-> ->]. now left.
  - clear IHpost'. intros E. right. exists post'.
    rewrite app_comm_cons, app_assoc in E.
    apply app_inj_tail in E as [-> ->]. now split.
Qed.

Lemma In_without_nth {A : Type} (l : list A) (x : A) :
  forall i, In x (firstn i l ++ skipn (S i) l) -> In x l.
Proof.
  induction l as [|y l IH]; intros [|i]; cbn; try tauto.
  intros [->|Hin]; [now left|]. right. now apply (IH i).
Qed.

Section Supersession.

Context {Image Blob : Type}.
Variable size : Blob -> Z.
Variable makeJpegBlob : Canvas Image -> Q -> Blob.

(** The five parts of [estimatorInv], one goal each. *)
Ltac inv_parts := unfold estimatorInv; split; [|split; [|split; [|split]]].

Lemma estimatorInv_mounted : estimatorInv (mounted (Image := Image)) [].
Proof.
  inv_parts; cbn.
  - reflexivity.
  - discriminate.
  - intros j [].
  - intros pre k d post E. now destruct pre.
  - reflexivity.
Qed.

(** Appending an observation that is not [Applied] keeps what is known
    about the [Applied] ones. *)
Lemma applied_inv_snoc (log : list Obs) (o : Obs) :
  (forall k d, o <> Applied k d) ->
  (forall pre k d post,
      log = pre ++ Applied k d :: post ->
      k = lastIssued pre /\ In (Issued k) pre) ->
  forall pre k d post,
    log ++ [o] = pre ++ Applied k d :: post ->
    k = lastIssued pre /\ In (Issued k) pre.
Proof.
  intros Ho Hlog pre k d post E.
  apply snoc_split in E as [(_ & E & _)|(post' & _ & E)].
  - symmetry in E. now apply Ho in E.
  - now apply (Hlog _ _ _ _ E).
Qed.

(** A step that only changes the timer or the suspended callbacks, and
    observes nothing that is applied, keeps the invariant. *)
Lemma estimatorInv_quiet (st st' : Estimator Image) (log o : list Obs) :
  estimatorInv st log ->
  estimateSeq st' = estimateSeq st ->
  outWidth st' = outWidth st -> outHeight st' = outHeight st ->
  (forall j, timer st' = Some j -> timer st = Some j) ->
  (forall j, In j (awaiting st') ->
             In j (awaiting st) \/ timer st = Some j) ->
  o = [] \/ (exists k, o = [Discarded k]) ->
  estimatorInv st' (log ++ o).
Proof.
  intros (Htags & Htimer & Hawait & Happ & Hout) Eseq Ew Eh Ht Ha Ho.
  assert (Hsub : forall x, In x log -> In x (log ++ o))
    by (intros x Hx; apply in_or_app; now left).
  inv_parts.
  - rewrite issuedTags_app, Eseq, Htags.
    destruct Ho as [->|[k ->]]; cbn; now rewrite app_nil_r.
  - intros j Hj. apply Hsub, Htimer, Ht, Hj.
  - intros j Hj. apply Hsub. destruct (Ha j Hj); auto.
  - destruct Ho as [->|[k ->]].
    + rewrite app_nil_r. exact Happ.
    + apply applied_inv_snoc; [discriminate|exact Happ].
  - rewrite Ew, Eh, displayed_app, <- Hout.
    destruct Ho as [->|[k ->]]; reflexivity.
Qed.

Lemma step_preserves (st st' : Estimator Image) (e : Event Image)
  (log o : list Obs) :
  estimatorInv st log ->
  step size makeJpegBlob st e = (st', o) ->
  estimatorInv st' (log ++ o).
Proof.
  intros Hinv Hstep.
  destruct e as [img area edited| |i]; cbn [step] in Hstep.
  - assert (Hoff : estimatorInv
              {| estimateSeq := estimateSeq st; timer := None;
                 awaiting := awaiting st;
                 outWidth := outWidth st; outHeight := outHeight st;
                 filename := filename st;
                 userEditedName := edited |} (log ++ [])).
    { apply (estimatorInv_quiet st); cbn; auto; discriminate. }
    destruct img as [image|]; [destruct area as [area|]|];
      injection Hstep as <- <-; try exact Hoff.
    destruct Hinv as (Htags & Htimer & Hawait & Happ & Hout).
    inv_parts; cbn [estimateSeq timer awaiting outWidth outHeight].
    + rewrite issuedTags_app, Htags, seq_S. reflexivity.
    + intros j E. injection E as <-. cbn. apply in_or_app. right. now left.
    + intros j Hj. apply in_or_app. left. now apply Hawait.
    + apply applied_inv_snoc; [discriminate|exact Happ].
    + rewrite displayed_app. cbn. exact Hout.
  - destruct (timer st) as [j|] eqn:Ht; injection Hstep as <- <-.
    + apply (estimatorInv_quiet st); cbn; auto; try discriminate.
      intros j' Hj'. apply in_app_or in Hj' as [Hj'|[<-|[]]]; auto.
    + apply (estimatorInv_quiet st); auto.
  - destruct (nth_error (awaiting st) i) as [j|] eqn:Hnth;
      [|injection Hstep as <- <-; apply (estimatorInv_quiet st); auto].
    assert (Hdisc : estimatorInv
              {| estimateSeq := estimateSeq st; timer := timer st;
                 awaiting :=
                   firstn i (awaiting st) ++ skipn (S i) (awaiting st);
                 outWidth := outWidth st; outHeight := outHeight st;
                 filename := filename st;
                 userEditedName := userEditedName st |}
              (log ++ [Discarded (mySeq j)])).
    { apply (estimatorInv_quiet st); cbn; eauto.
      intros j' Hj'. left. now apply In_without_nth in Hj'. }
    destruct (findBestSizeOnly size makeJpegBlob (jobImage j) (jobCrop j))
      as [best|]; [|injection Hstep as <- <-; exact Hdisc].
    destruct (Nat.eqb (estimateSeq st) (mySeq j)) eqn:Heq;
      cbn [negb] in Hstep; injection Hstep as <- <-; [|exact Hdisc].
    apply Nat.eqb_eq in Heq.
    destruct Hinv as (Htags & Htimer & Hawait & Happ & Hout).
    assert (Hj : In (Issued (mySeq j)) log)
      by (apply Hawait; eapply nth_error_In; eassumption).
    inv_parts; cbn [estimateSeq timer awaiting outWidth outHeight].
    + rewrite issuedTags_app. cbn. now rewrite app_nil_r.
    + intros j' E. apply in_or_app. left. now apply Htimer.
    + intros j' Hj'. apply in_or_app. left.
      now apply Hawait, In_without_nth with (i := i).
    + intros pre k d post E.
      apply snoc_split in E as [(_ & E & ->)|(post' & _ & E)].
      * injection E as -> _. split; [|exact Hj].
        unfold lastIssued. now rewrite Htags, last_seq.
      * now apply (Happ _ _ _ _ E).
    + rewrite displayed_app. reflexivity.
Qed.

Lemma run_preserves (evs : list (Event Image)) :
  forall st st' log0 log,
    estimatorInv st log0 ->
    run size makeJpegBlob st evs = (st', log) ->
    estimatorInv st' (log0 ++ log).
Proof.
  induction evs as [|e evs IH]; intros st st' log0 log Hinv Hrun;
    cbn [run] in Hrun.
  - injection Hrun as <- <-. now rewrite app_nil_r.
  - destruct (step size makeJpegBlob st e) as [st1 o1] eqn:E1.
    destruct (run size makeJpegBlob st1 evs) as [st2 o2] eqn:E2.
    injection Hrun as <- <-. rewrite app_assoc.
    eapply IH; [|exact E2]. eapply step_preserves; eassumption.
Qed.

(** C8. In every run of the preview-estimate effect from the mounted page,
    whatever the order in which timers fire and estimates settle:
    the sequence numbers issued are 1, 2, 3, ... in this order (strictly
    increasing); a result is applied only if its sequence number is the
    one issued most recently at that moment; hence, once three estimates
    A, B, C have been issued in this order, every result applied afterwards
    carries a number at least C's, never A's or B's; and the output size on
    display is always the default or the last result applied. *)
Theorem estimate_supersession :
  forall (evs : list (Event Image)) (st : Estimator Image) (log : list Obs),
    run size makeJpegBlob mounted evs = (st, log) ->
    issuedTags log = seq 1 (estimateSeq st) /\
    (forall pre k d post,
        log = pre ++ Applied k d :: post ->
        k = lastIssued pre /\ In (Issued k) pre) /\
    (forall l0 a l1 b l2 c l3 k d,
        log = l0 ++ Issued a :: l1 ++ Issued b :: l2 ++ Issued c :: l3 ->
        In (Applied k d) l3 ->
        (a < b < c)%nat /\ (c <= k)%nat /\ k <> a /\ k <> b) /\
    (outWidth st, outHeight st) = displayed (360, 480)%Z log.
Proof.
  intros evs st log Hrun.
  destruct (run_preserves evs _ _ [] _ estimatorInv_mounted Hrun)
    as (Htags & _ & _ & Happ & Hout).
  cbn [app] in Htags, Happ, Hout.
  split; [exact Htags|]. split; [exact Happ|]. split; [|exact Hout].
  intros l0 a l1 b l2 c l3 k d Elog Hin.
  apply in_split in Hin as (l3a & l3b & ->).
  set (pre := l0 ++ Issued a :: l1 ++ Issued b :: l2 ++ Issued c :: l3a).
  assert (Epre : log = pre ++ Applied k d :: l3b).
  { rewrite Elog. unfold pre.
    repeat (rewrite <- app_assoc; cbn [app]). reflexivity. }
  destruct (Happ _ _ _ _ Epre) as [Hk _].
  rewrite Epre, issuedTags_app in Htags.
  pose proof (seq_prefix _ _ _ _ Htags) as Hpre.
  unfold lastIssued in Hk. rewrite Hpre, last_seq in Hk.
  unfold pre in Hpre, Hk.
  repeat (rewrite issuedTags_app in Hpre, Hk;
          cbn [issuedTags] in Hpre, Hk).
  set (t0 := issuedTags l0) in *. set (t1 := issuedTags l1) in *.
  set (t2 := issuedTags l2) in *. set (t3 := issuedTags l3a) in *.
  pose proof (seq_middle _ _ _ _ _ Hpre) as Ha.
  assert (Hb : b = (1 + length (t0 ++ a :: t1))%nat).
  { eapply seq_middle with (l2 := t2 ++ c :: t3).
    rewrite <- app_assoc. cbn [app]. exact Hpre. }
  assert (Hc : c = (1 + length (t0 ++ a :: t1 ++ b :: t2))%nat).
  { eapply seq_middle with (l2 := t3).
    repeat (rewrite <- app_assoc; cbn [app]). exact Hpre. }
  clear Hpre.
  repeat (rewrite length_app in Hk; cbn [length] in Hk).
  repeat (rewrite length_app in Hb; cbn [length] in Hb).
  repeat (rewrite length_app in Hc; cbn [length] in Hc).
  lia.
Qed.

End Supersession.

(** The run [rapidABC]: three estimates are issued, B and A settle in this
    order and are discarded, and only C's result is applied. *)
Example rapidABC_log :
  snd (run (fun b : Z => b) sampleEncoder mounted rapidABC)
  = [Issued 1; Issued 2; Issued 3; Discarded 2; Discarded 1;
     Applied 3 {| dw := 592; dh := 790 |}].
Proof. vm_compute. reflexivity. Qed.

Lemma estimate_supersession_witness :
  let st := fst (run (fun b : Z => b) sampleEncoder mounted rapidABC) in
  let log := snd (run (fun b : Z => b) sampleEncoder mounted rapidABC) in
  issuedTags log = seq 1 (estimateSeq st) /\
  (forall pre k d post,
      log = pre ++ Applied k d :: post ->
      k = lastIssued pre /\ In (Issued k) pre) /\
  (forall l0 a l1 b l2 c l3 k d,
      log = l0 ++ Issued a :: l1 ++ Issued b :: l2 ++ Issued c :: l3 ->
      In (Applied k d) l3 ->
      (a < b < c)%nat /\ (c <= k)%nat /\ k <> a /\ k <> b) /\
  (outWidth st, outHeight st) = displayed (360, 480)%Z log.
Proof.
  intros st log.
  apply (estimate_supersession (fun b : Z => b) sampleEncoder rapidABC).
  apply surjective_pairing.
Defined.

(** * Further properties of the code *)

(** ** Where a bisection ends *)

Lemma bisect_app (fits : Q -> bool) (n k : nat) :
  forall lo hi,
    bisect fits (n + k) lo hi
    = bisect fits n lo hi
      ++ bisect fits k (fst (bisectBounds fits n lo hi))
           (snd (bisectBounds fits n lo hi)).
Proof.
  induction n as [|n IH]; intros lo hi; [reflexivity|].
  cbn [Nat.add bisect bisectBounds app].
  destruct (fits ((lo + hi) / 2)); now rewrite IH.
Qed.

Lemma lastFit_app (fits : Q -> bool) (l1 l2 : list Q) :
  lastFit fits (l1 ++ l2)
  = match lastFit fits l2 with
    | Some u => Some u
    | None => lastFit fits l1
    end.
Proof.
  induction l1 as [|v l1 IH]; cbn [app lastFit].
  - now destruct (lastFit fits l2).
  - rewrite IH. now destruct (lastFit fits l2).
Qed.

(** The lower bound is the last midpoint that fitted, or the initial one. *)
Lemma bisectBounds_lo (fits : Q -> bool) (n : nat) :
  forall lo hi,
    fst (bisectBounds fits n lo hi)
    = match lastFit fits (bisect fits n lo hi) with
      | Some u => u
      | None => lo
      end.
Proof.
  induction n as [|n IH]; intros lo hi; [reflexivity|].
  cbn [bisect bisectBounds lastFit].
  destruct (fits ((lo + hi) / 2)) eqn:E; rewrite IH;
    now destruct (lastFit fits (bisect fits n _ _)).
Qed.

(** The interval shrinks inside the initial one and halves at each step. *)
Lemma bisectBounds_inside (fits : Q -> bool) (n : nat) :
  forall lo hi,
    lo < hi ->
    let b := bisectBounds fits n lo hi in
    lo <= fst b /\ fst b < snd b /\ snd b <= hi /\
    (snd b - fst b) * inject_Z (2 ^ Z.of_nat n) == hi - lo.
Proof.
  induction n as [|n IH]; intros lo hi Hlt; cbn [bisectBounds].
  - cbn. repeat split; try lra. ring.
  - destruct (midpoint_between lo hi Hlt) as [Hl Hh].
    assert (E2 : inject_Z (2 ^ Z.of_nat (S n))
                 == 2 * inject_Z (2 ^ Z.of_nat n)).
    { rewrite Nat2Z.inj_succ, Z.pow_succ_r by lia.
      now rewrite inject_Z_mult. }
    assert (Em : (lo + hi) / 2 == (lo + hi) * (1 # 2)) by field.
    destruct (fits ((lo + hi) / 2)).
    + destruct (IH _ _ Hh) as (H1 & H2 & H3 & H4). cbv zeta.
      repeat split; try lra. rewrite E2.
      setoid_replace (hi - lo) with (2 * (hi - (lo + hi) / 2))
        by (rewrite Em; ring).
      rewrite <- H4. ring.
    + destruct (IH _ _ Hl) as (H1 & H2 & H3 & H4). cbv zeta.
      repeat split; try lra. rewrite E2.
      setoid_replace (hi - lo) with (2 * ((lo + hi) / 2 - lo))
        by (rewrite Em; ring).
      rewrite <- H4. ring.
Qed.

(** The upper bound is the initial one or a midpoint that did not fit. *)
Lemma bisectBounds_hi (fits : Q -> bool) (n : nat) :
  forall lo hi,
    snd (bisectBounds fits n lo hi) = hi
    \/ fits (snd (bisectBounds fits n lo hi)) = false.
Proof.
  induction n as [|n IH]; intros lo hi; cbn [bisectBounds]; [now left|].
  destruct (fits ((lo + hi) / 2)) eqn:E.
  - apply IH.
  - destruct (IH lo ((lo + hi) / 2)) as [->|H]; [now right|now right].
Qed.

(** When fitting is downward closed, nothing from the final upper bound up
    to the initial one fits. *)
Lemma bisectBounds_above (fits : Q -> bool) (n : nat) (lo hi : Q) :
  (forall a b, a <= b -> fits b = true -> fits a = true) ->
  forall v,
    snd (bisectBounds fits n lo hi) <= v -> v < hi -> fits v = false.
Proof.
  intros Hmono v Hv Hhi.
  destruct (bisectBounds_hi fits n lo hi) as [E|E].
  - rewrite E in Hv. lra.
  - destruct (fits v) eqn:Ev; [|reflexivity].
    rewrite (Hmono _ _ Hv Ev) in E. discriminate.
Qed.

(** ** The quality search, continued *)

Section SearchFacts.

Context {Image Blob : Type}.
Variable size : Blob -> Z.
Variable makeJpegBlob : Canvas Image -> Q -> Blob.

(** X1. Among the eight sampled qualities, [encodeJpegUnder2MB] returns the
    highest one whose encoding is within budget, with that very encoding. *)
Theorem encodeJpegUnder2MB_highest_sampled_quality :
  forall c : Canvas Image,
    Exists (fun v => (size (makeJpegBlob c v) <= MAX_BYTES)%Z)
      (midpointQualities size makeJpegBlob c) ->
    exists r,
      encodeJpegUnder2MB size makeJpegBlob c = Some r /\
      In (q r) (midpointQualities size makeJpegBlob c) /\
      blob r = makeJpegBlob c (q r) /\
      (size (blob r) <= MAX_BYTES)%Z /\
      Forall (fun v => (size (makeJpegBlob c v) <= MAX_BYTES)%Z -> v <= q r)
        (midpointQualities size makeJpegBlob c).
Proof.
  intros c Hex.
  destruct (encodeJpegUnder2MB_cases size makeJpegBlob c)
    as [(v & Hv & E)|(Hn & _ & _)].
  - exists {| blob := makeJpegBlob c v; q := v |}. cbn [blob q].
    pose proof (lastFit_some _ _ _ Hv) as [Hin Hfit].
    split; [exact E|]. split; [exact Hin|]. split; [reflexivity|].
    split; [now apply fitsAt_true|].
    pose proof (bisect_lastFit_max (fitsAt size makeJpegBlob c) 8 0.5 0.95 v
                  eq_refl Hv) as Hmax.
    eapply Forall_impl; [|exact Hmax]. cbn. intros u Hu Hfu.
    apply Hu. now apply fitsAt_true.
  - apply lastFit_none in Hn. exfalso.
    apply Exists_exists in Hex as (v & Hin & Hfit).
    rewrite Forall_forall in Hn. specialize (Hn v Hin).
    apply fitsAt_false in Hn. lia.
Qed.

Lemma fitsAt_downward (c : Canvas Image) :
  (forall a b, a <= b ->
     (size (makeJpegBlob c a) <= size (makeJpegBlob c b))%Z) ->
  forall a b,
    a <= b -> fitsAt size makeJpegBlob c b = true ->
    fitsAt size makeJpegBlob c a = true.
Proof.
  intros Hmono a b Hab Hb. apply fitsAt_true in Hb. apply fitsAt_true.
  specialize (Hmono a b Hab). lia.
Qed.

(** X2. When the encoded size does not decrease with the quality, the quality
    that [encodeJpegUnder2MB] returns is within [0.45 / 256] of the best
    possible one: every quality of the search range that is at least that
    much higher is over budget. *)
Theorem encodeJpegUnder2MB_near_optimal :
  forall c : Canvas Image,
    (forall a b, a <= b ->
       (size (makeJpegBlob c a) <= size (makeJpegBlob c b))%Z) ->
    exists r,
      encodeJpegUnder2MB size makeJpegBlob c = Some r /\
      forall v,
        q r + 0.45 / 256 <= v -> v < 0.95 ->
        (MAX_BYTES < size (makeJpegBlob c v))%Z.
Proof.
  intros c Hmono.
  pose proof (bisectBounds_inside (fitsAt size makeJpegBlob c) 8 0.5 0.95
                eq_refl) as (_ & _ & _ & Hw).
  pose proof (bisectBounds_lo (fitsAt size makeJpegBlob c) 8 0.5 0.95) as Hlo.
  fold (midpointQualities size makeJpegBlob c) in Hlo.
  cbv zeta in Hw. change (inject_Z (2 ^ Z.of_nat 8)) with 256 in Hw.
  assert (Habove : forall r : Enc Blob,
             fst (bisectBounds (fitsAt size makeJpegBlob c) 8 0.5 0.95) = q r ->
             forall v, q r + 0.45 / 256 <= v -> v < 0.95 ->
                       (MAX_BYTES < size (makeJpegBlob c v))%Z).
  { intros r Hr v Hv Hhi. apply fitsAt_false.
    apply (bisectBounds_above _ 8 0.5 0.95 (fitsAt_downward c Hmono)); auto.
    rewrite Hr in Hw.
    assert (E : 0.45 / 256 == (9 # 5120)) by reflexivity.
    rewrite E in Hv. lra. }
  destruct (encodeJpegUnder2MB_cases size makeJpegBlob c)
    as [(v & Hv & E)|(Hn & _ & E)]; rewrite E; eexists;
    (split; [reflexivity|]); apply Habove; cbn [q].
  - now rewrite Hlo, Hv.
  - now rewrite Hlo, Hn.
Qed.

End SearchFacts.

(** ** The resolution search, continued *)

Section ResolutionFacts.

Context {Image Blob : Type}.
Variable size : Blob -> Z.
Variable makeJpegBlob : Canvas Image -> Q -> Blob.

Lemma dimsAt_canvasAt (image : Image) (cropPx : Area.t) (s : Q) :
  dimsAt cropPx s
  = {| dw := cwidth (canvasAt image cropPx s);
       dh := cheight (canvasAt image cropPx s) |}.
Proof. reflexivity. Qed.

(** The preview loop completes normally and leaves in [best] the size of
    the last midpoint scale that fits. *)
Lemma sizeOnlyLoop_lastFit (image : Image) (cropPx : Area.t) (n : nat) :
  forall lo hi best,
    sizeOnlyLoop size makeJpegBlob image cropPx
      (JSMath.floor (Area.width cropPx)) (JSMath.floor (Area.height cropPx))
      n lo hi best
    = Some
        match lastFit (scaleFits size makeJpegBlob image cropPx)
                (bisect (scaleFits size makeJpegBlob image cropPx) n lo hi)
        with
        | Some s => Some (dimsAt cropPx s)
        | None => best
        end.
Proof.
  induction n as [|n IH]; intros lo hi best; [reflexivity|].
  cbn [sizeOnlyLoop bisect lastFit].
  set (m := (lo + hi) / 2).
  destruct (encodeJpegUnder2MB_total size makeJpegBlob
              (canvasAt image cropPx m)) as [enc E].
  rewrite (scaleFits_eq _ _ _ _ _ _ E).
  change (drawImage image cropPx _ _) with (canvasAt image cropPx m).
  rewrite E. cbn [bind].
  destruct (size (blob enc) <=? MAX_BYTES)%Z; rewrite IH;
    match goal with
    | |- context [lastFit ?f ?l] => destruct (lastFit f l)
    end; reflexivity.
Qed.

Lemma findBestSizeOnly_cases (image : Image) (cropPx : Area.t) :
  findBestSizeOnly size makeJpegBlob image cropPx
  = Some
      match lastFit (scaleFits size makeJpegBlob image cropPx)
              (previewScales size makeJpegBlob image cropPx)
      with
      | Some s => dimsAt cropPx s
      | None => fallbackDims cropPx
      end.
Proof.
  unfold findBestSizeOnly, previewScales.
  rewrite sizeOnlyLoop_lastFit. cbn [bind].
  now destruct (lastFit _ _).
Qed.


(** The export samples the six scales of the preview and then two more. *)
Lemma midpointScales_previewScales (image : Image) (cropPx : Area.t) :
  midpointScales size makeJpegBlob image cropPx
  = previewScales size makeJpegBlob image cropPx
    ++ bisect (scaleFits size makeJpegBlob image cropPx) 2
         (fst (bisectBounds (scaleFits size makeJpegBlob image cropPx)
                 6 0.2 1.0))
         (snd (bisectBounds (scaleFits size makeJpegBlob image cropPx)
                 6 0.2 1.0)).
Proof. apply (bisect_app _ 6 2). Qed.



(** X5. When none of the export's eight scales fits, the preview and the
    export agree on the fallback size. *)
Theorem findBestSizeOnly_agrees_in_fallback :
  forall (image : Image) (cropPx : Area.t),
    Forall (fun s => scaleFits size makeJpegBlob image cropPx s = false)
      (midpointScales size makeJpegBlob image cropPx) ->
    exists d r,
      findBestSizeOnly size makeJpegBlob image cropPx = Some d /\
      findBestSizeAndEncode size makeJpegBlob image cropPx = Some r /\
      d = fallbackDims cropPx /\ w r = dw d /\ h r = dh d.
Proof.
  intros image cropPx Hall.
  assert (Hpre : lastFit (scaleFits size makeJpegBlob image cropPx)
                   (previewScales size makeJpegBlob image cropPx) = None).
  { apply lastFit_none. rewrite midpointScales_previewScales in Hall.
    now apply Forall_app in Hall as [H _]. }
  apply lastFit_none in Hall.
  destruct (findBestSizeAndEncode_cases size makeJpegBlob image cropPx)
    as [(s & Hs & _)|(_ & enc & _ & E)]; [congruence|].
  rewrite findBestSizeOnly_cases, Hpre, E.
  eexists. eexists. repeat split.
Qed.

(** X6. The preview and the export can part ways: when none of the six scales
    of the preview fits but the seventh or eighth scale of the export does,
    the preview returns the fallback size while the export returns the crop
    scaled by less than [0.2 + 0.8 / 64 = 0.2125]. *)
Theorem findBestSizeOnly_misses_late_fit :
  forall (image : Image) (cropPx : Area.t),
    Forall (fun s => scaleFits size makeJpegBlob image cropPx s = false)
      (previewScales size makeJpegBlob image cropPx) ->
    Exists (fun s => scaleFits size makeJpegBlob image cropPx s = true)
      (midpointScales size makeJpegBlob image cropPx) ->
    exists r se,
      findBestSizeOnly size makeJpegBlob image cropPx
      = Some (fallbackDims cropPx) /\
      findBestSizeAndEncode size makeJpegBlob image cropPx = Some r /\
      sizedAt size makeJpegBlob image cropPx se = Some r /\
      0.2 < se /\ se < 0.2125.
Proof.
  intros image cropPx Hnone Hex.
  apply lastFit_none in Hnone.
  apply lastFit_exists in Hex as [se Hse].
  pose proof (bisectBounds_lo (scaleFits size makeJpegBlob image cropPx)
                6 0.2 1.0) as Hlo.
  fold (previewScales size makeJpegBlob image cropPx) in Hlo.
  rewrite Hnone in Hlo.
  pose proof (bisectBounds_inside (scaleFits size makeJpegBlob image cropPx)
                6 0.2 1.0 eq_refl) as (_ & Hlt & _ & Hw).
  cbv zeta in Hw. change (inject_Z (2 ^ Z.of_nat 6)) with 64 in Hw.
  rewrite Hlo in Hlt, Hw.
  set (hi6 := snd (bisectBounds (scaleFits size makeJpegBlob image cropPx)
                     6 0.2 1.0)) in *.
  pose proof Hse as Hse'.
  rewrite midpointScales_previewScales, lastFit_app, Hlo in Hse'.
  fold hi6 in Hse'.
  destruct (lastFit _ (bisect _ 2 0.2 hi6)) as [u|] eqn:Eu; [|congruence].
  injection Hse' as ->.
  apply lastFit_some in Eu as [Hin _].
  pose proof (bisect_between (scaleFits size makeJpegBlob image cropPx)
                2 0.2 hi6 Hlt) as Hb.
  rewrite Forall_forall in Hb. destruct (Hb se Hin) as [H1 H2].
  destruct (findBestSizeAndEncode_cases size makeJpegBlob image cropPx)
    as [(s & Hs & E)|(Hn & _)]; [|congruence].
  assert (s = se) by congruence. subst s.
  destruct (sizedAt_total size makeJpegBlob image cropPx se) as (r & Hr & _).
  exists r, se. rewrite findBestSizeOnly_cases, Hnone, E.
  repeat split; try assumption. lra.
Qed.



(** X8. When some sampled scale fits, each side of the result is at least one
    pixel and more than a fifth of the crop's side, less one pixel. *)
Theorem findBestSizeAndEncode_at_least_a_fifth :
  forall (image : Image) (cropPx : Area.t),
    Exists (fun s => scaleFits size makeJpegBlob image cropPx s = true)
      (midpointScales size makeJpegBlob image cropPx) ->
    exists r,
      findBestSizeAndEncode size makeJpegBlob image cropPx = Some r /\
      (1 <= w r)%Z /\ (1 <= h r)%Z /\
      inject_Z (JSMath.floor (Area.width cropPx)) * 0.2 - 1
      < inject_Z (w r) /\
      inject_Z (JSMath.floor (Area.height cropPx)) * 0.2 - 1
      < inject_Z (h r).
Proof.
  intros image cropPx Hex.
  apply lastFit_exists in Hex as [s Hs].
  destruct (findBestSizeAndEncode_cases size makeJpegBlob image cropPx)
    as [(s' & Hs' & E)|(Hn & _)]; [|congruence].
  assert (s' = s) by congruence. subst s'.
  destruct (sizedAt_total size makeJpegBlob image cropPx s)
    as (r & Hr & Hw & Hh).
  exists r. rewrite E. split; [exact Hr|].
  apply lastFit_some in Hs as [Hin _].
  pose proof (midpointScales_between size makeJpegBlob image cropPx) as Hb.
  rewrite Forall_forall in Hb. destruct (Hb s Hin) as [Hlo _].
  rewrite Hw, Hh.
  split; [apply Z.le_max_l|]. split; [apply Z.le_max_l|].
  assert (Hside : forall m : Z,
             inject_Z m * 0.2 - 1
             < inject_Z (Z.max 1 (JSMath.floor (inject_Z m * s)))).
  { intros m.
    pose proof (Qlt_floor (inject_Z m * s)) as Hf.
    rewrite inject_Z_plus in Hf. change (inject_Z 1) with 1 in Hf.
    fold (JSMath.floor (inject_Z m * s)) in Hf.
    pose proof (Z.le_max_r 1 (JSMath.floor (inject_Z m * s))) as Hr2.
    pose proof (Z.le_max_l 1 (JSMath.floor (inject_Z m * s))) as Hr1.
    rewrite Zle_Qle in Hr1, Hr2. change (inject_Z 1) with 1 in Hr1.
    destruct (Z_lt_le_dec m 0) as [Hneg|Hpos].
    - assert (inject_Z m < 0)
        by (change 0 with (inject_Z 0); now rewrite <- Zlt_Qlt).
      lra.
    - assert (0 <= inject_Z m)
        by (change 0 with (inject_Z 0); now rewrite <- Zle_Qle).
      nra. }
  split; apply Hside.
Qed.

End ResolutionFacts.

(** ** The sample encoders are monotone *)

Lemma sampleEncoder_monotone_quality (c : Canvas unit) (a b : Q) :
  (0 <= cwidth c * cheight c)%Z -> a <= b ->
  (sampleEncoder c a <= sampleEncoder c b)%Z.
Proof.
  intros Harea Hab. unfold sampleEncoder, JSMath.floor.
  apply Qfloor_resp_le.
  assert (0 <= inject_Z (cwidth c * cheight c))
    by (change 0 with (inject_Z 0); now rewrite <- Zle_Qle).
  nra.
Qed.



(** ** The further properties on sample inputs *)

Lemma encodeJpegUnder2MB_highest_sampled_quality_witness :
  let c := drawImage tt crop1200x1600 1020 1360 in
  exists r,
    encodeJpegUnder2MB (fun b : Z => b) sampleEncoder c = Some r /\
    In (q r) (midpointQualities (fun b : Z => b) sampleEncoder c) /\
    blob r = sampleEncoder c (q r) /\
    (blob r <= MAX_BYTES)%Z /\
    Forall (fun v => (sampleEncoder c v <= MAX_BYTES)%Z -> v <= q r)
      (midpointQualities (fun b : Z => b) sampleEncoder c).
Proof.
  intros c.
  apply (encodeJpegUnder2MB_highest_sampled_quality (fun b : Z => b)
           sampleEncoder c).
  apply (Exists_of_existsb (fitsAt (fun b : Z => b) sampleEncoder c)).
  - intros v Hv. now apply Z.leb_le.
  - vm_compute. reflexivity.
Defined.

Lemma encodeJpegUnder2MB_near_optimal_witness :
  let c := drawImage tt crop1200x1600 1020 1360 in
  exists r,
    encodeJpegUnder2MB (fun b : Z => b) sampleEncoder c = Some r /\
    forall v,
      q r + 0.45 / 256 <= v -> v < 0.95 ->
      (MAX_BYTES < sampleEncoder c v)%Z.
Proof.
  intros c.
  apply (encodeJpegUnder2MB_near_optimal (fun b : Z => b) sampleEncoder c).
  intros a b Hab. apply sampleEncoder_monotone_quality; [|exact Hab].
  vm_compute. discriminate.
Defined.


Lemma Forall_of_forallb {A : Type} (p : A -> bool) (P : A -> Prop)
  (l : list A) :
  (forall a, p a = true -> P a) -> forallb p l = true -> Forall P l.
Proof.
  intros Hp Hall. apply Forall_forall. intros a Hin.
  apply Hp. rewrite forallb_forall in Hall. now apply Hall.
Qed.

Lemma findBestSizeOnly_agrees_in_fallback_witness :
  exists d r,
    findBestSizeOnly (fun b : Z => b) overBudgetEncoder tt crop1200x1600
    = Some d /\
    findBestSizeAndEncode (fun b : Z => b) overBudgetEncoder tt crop1200x1600
    = Some r /\
    d = fallbackDims crop1200x1600 /\ w r = dw d /\ h r = dh d.
Proof.
  apply (findBestSizeOnly_agrees_in_fallback (fun b : Z => b)
           overBudgetEncoder).
  apply (Forall_of_forallb
           (fun s => negb (scaleFits (fun b : Z => b) overBudgetEncoder tt
                             crop1200x1600 s))).
  - intros s Hs. now apply negb_true_iff.
  - vm_compute. reflexivity.
Defined.

Lemma findBestSizeOnly_misses_late_fit_witness :
  exists r se,
    findBestSizeOnly (fun b : Z => b) columnEncoder tt crop1200x1600
    = Some (fallbackDims crop1200x1600) /\
    findBestSizeAndEncode (fun b : Z => b) columnEncoder tt crop1200x1600
    = Some r /\
    sizedAt (fun b : Z => b) columnEncoder tt crop1200x1600 se = Some r /\
    0.2 < se /\ se < 0.2125.
Proof.
  apply (findBestSizeOnly_misses_late_fit (fun b : Z => b) columnEncoder).
  - apply (Forall_of_forallb
             (fun s => negb (scaleFits (fun b : Z => b) columnEncoder tt
                               crop1200x1600 s))).
    + intros s Hs. now apply negb_true_iff.
    + vm_compute. reflexivity.
  - apply (Exists_of_existsb
             (scaleFits (fun b : Z => b) columnEncoder tt crop1200x1600)).
    + intros s Hs. exact Hs.
    + vm_compute. reflexivity.
Defined.


Lemma findBestSizeAndEncode_at_least_a_fifth_witness :
  exists r,
    findBestSizeAndEncode (fun b : Z => b) sampleEncoder tt crop1200x1600
    = Some r /\
    (1 <= w r)%Z /\ (1 <= h r)%Z /\
    1200 * 0.2 - 1 < inject_Z (w r) /\ 1600 * 0.2 - 1 < inject_Z (h r).
Proof.
  apply (findBestSizeAndEncode_at_least_a_fifth (fun b : Z => b)
           sampleEncoder).
  apply (Exists_of_existsb
           (scaleFits (fun b : Z => b) sampleEncoder tt crop1200x1600)).
  - intros s Hs. exact Hs.
  - vm_compute. reflexivity.
Defined.

(** ** The preview-estimate effect, continued *)

Lemma In_or_removed {A : Type} (l : list A) (x y : A) :
  forall i,
    nth_error l i = Some y -> In x l ->
    x = y \/ In x (firstn i l ++ skipn (S i) l).
Proof.
  induction l as [|z l IH]; intros [|i] Hnth Hin; cbn in *;
    try discriminate; try tauto.
  - injection Hnth as ->. destruct Hin as [->|Hin]; auto.
  - destruct Hin as [->|Hin]; [right; now left|].
    destruct (IH i Hnth Hin); auto.
Qed.

Lemma In_Issued_tags (log : list Obs) (k : nat) :
  In (Issued k) log -> In k (issuedTags log).
Proof.
  induction log as [|o log IH]; cbn; [tauto|].
  intros [->|Hin]; [now left|].
  destruct o; cbn; auto.
Qed.

Section Debounce.

Context {Image Blob : Type}.
Variable size : Blob -> Z.
Variable makeJpegBlob : Canvas Image -> Q -> Blob.

Lemma run_app (evs1 evs2 : list (Event Image)) :
  forall st,
    run size makeJpegBlob st (evs1 ++ evs2)
    = let (st1, o1) := run size makeJpegBlob st evs1 in
      let (st2, o2) := run size makeJpegBlob st1 evs2 in
      (st2, o1 ++ o2).
Proof.
  induction evs1 as [|e evs1 IH]; intros st; cbn [app run].
  - now destruct (run size makeJpegBlob st evs2).
  - destruct (step size makeJpegBlob st e) as [st1 o1].
    rewrite IH.
    destruct (run size makeJpegBlob st1 evs1) as [st2 o2].
    destruct (run size makeJpegBlob st2 evs2) as [st3 o3].
    now rewrite app_assoc.
Qed.

(** In a reachable state no pending callback carries a number above the
    current one. *)
Lemma pending_tags_bounded (st : Estimator Image) (log : list Obs) :
  estimatorInv st log ->
  forall j, In j (pendingJobs st) -> (1 <= mySeq j <= estimateSeq st)%nat.
Proof.
  intros (Htags & Htimer & Hawait & _) j Hj.
  assert (Hin : In (Issued (mySeq j)) log).
  { unfold pendingJobs in Hj. destruct (timer st) as [t|] eqn:Et.
    - destruct Hj as [<-|Hj]; [now apply Htimer|now apply Hawait].
    - now apply Hawait. }
  apply In_Issued_tags in Hin. rewrite Htags in Hin.
  apply in_seq in Hin. lia.
Qed.

Lemma latestInv_step (n : nat) (image : Image) (area : Area.t)
  (st st' : Estimator Image) (e : Event Image) (o : list Obs) :
  isRender e = false ->
  latestInv size makeJpegBlob n image area st ->
  step size makeJpegBlob st e = (st', o) ->
  latestInv size makeJpegBlob n image area st'.
Proof.
  intros He Hinv Hstep. pose proof Hinv as (Hn & Hjobs & Hlast).
  destruct e as [? ? ?| |i]; [discriminate| |]; cbn [step] in Hstep.
  - destruct (timer st) as [t|] eqn:Et; injection Hstep as <- <-;
      [|exact Hinv].
    assert (Hsame : forall j,
               In j (pendingJobs
                       {| estimateSeq := estimateSeq st; timer := None;
                          awaiting := awaiting st ++ [t];
                          outWidth := outWidth st; outHeight := outHeight st;
                          filename := filename st;
                          userEditedName := userEditedName st |})
               <-> In j (pendingJobs st)).
    { intros j. unfold pendingJobs. rewrite Et. cbn.
      rewrite in_app_iff. cbn. tauto. }
    split; [exact Hn|]. split.
    + intros j Hj. now apply Hjobs, Hsame.
    + destruct Hlast as [(j & Hj & Hjn)|Hdone]; [left|now right].
      exists j. split; [now apply Hsame|exact Hjn].
  - destruct (nth_error (awaiting st) i) as [t|] eqn:Hnth;
      [|injection Hstep as <- <-; exact Hinv].
    assert (Ht : In t (pendingJobs st)).
    { unfold pendingJobs. apply nth_error_In in Hnth.
      destruct (timer st); [now right|exact Hnth]. }
    assert (Hsub : forall st1 : Estimator Image,
               timer st1 = timer st ->
               awaiting st1
               = firstn i (awaiting st) ++ skipn (S i) (awaiting st) ->
               (forall j, In j (pendingJobs st1) -> In j (pendingJobs st)) /\
               (forall j, In j (pendingJobs st) ->
                          j = t \/ In j (pendingJobs st1))).
    { intros st1 E1 E2. unfold pendingJobs. rewrite E1, E2.
      destruct (timer st) as [u|]; split; intros j Hj.
      - destruct Hj as [->|Hj]; [now left|].
        right. now apply In_without_nth in Hj.
      - destruct Hj as [->|Hj]; [right; now left|].
        destruct (In_or_removed _ _ _ _ Hnth Hj); [now left|].
        right. now right.
      - now apply In_without_nth in Hj.
      - now apply (In_or_removed _ _ _ _ Hnth). }
    assert (Hkeep : forall st1 : Estimator Image,
               estimateSeq st1 = estimateSeq st ->
               timer st1 = timer st ->
               awaiting st1
               = firstn i (awaiting st) ++ skipn (S i) (awaiting st) ->
               (mySeq t <> n
                /\ outWidth st1 = outWidth st /\ outHeight st1 = outHeight st)
               \/ findBestSizeOnly size makeJpegBlob image area
                  = Some {| dw := outWidth st1; dh := outHeight st1 |} ->
               latestInv size makeJpegBlob n image area st1).
    { intros st1 Es Et Ea Hout. destruct (Hsub st1 Et Ea) as [Hin Hout'].
      split; [congruence|]. split; [intros j Hj; now apply Hjobs, Hin|].
      destruct Hout as [(Hne & Ew & Eh)|Hdone]; [|now right].
      destruct Hlast as [(j & Hj & Hjn)|Hdone].
      - left. exists j. split; [|exact Hjn].
        destruct (Hout' j Hj) as [->|Hj']; [contradiction|exact Hj'].
      - right. now rewrite Ew, Eh. }
    destruct (findBestSizeOnly size makeJpegBlob (jobImage t) (jobCrop t))
      as [best|] eqn:Ebest.
    + destruct (Nat.eqb (estimateSeq st) (mySeq t)) eqn:Heq;
        cbn [negb] in Hstep; injection Hstep as <- <-.
      * apply Nat.eqb_eq in Heq. apply Hkeep; try reflexivity.
        right. cbn [outWidth outHeight].
        destruct (Hjobs t Ht) as [_ Hcap].
        destruct (Hcap ltac:(congruence)) as [<- <-].
        rewrite Ebest. now destruct best.
      * apply Nat.eqb_neq in Heq. apply Hkeep; try reflexivity.
        left. repeat split. congruence.
    + rewrite findBestSizeOnly_cases in Ebest. discriminate.
Qed.

Lemma latestInv_run (n : nat) (image : Image) (area : Area.t)
  (evs : list (Event Image)) :
  forall st st' log,
    forallb (fun e => negb (isRender e)) evs = true ->
    latestInv size makeJpegBlob n image area st ->
    run size makeJpegBlob st evs = (st', log) ->
    latestInv size makeJpegBlob n image area st'.
Proof.
  induction evs as [|e evs IH]; intros st st' log Hevs Hinv Hrun;
    cbn [run forallb] in *.
  - now injection Hrun as <- _.
  - apply andb_prop in Hevs as [He Hevs]. apply negb_true_iff in He.
    destruct (step size makeJpegBlob st e) as [st1 o1] eqn:E1.
    destruct (run size makeJpegBlob st1 evs) as [st2 o2] eqn:E2.
    injection Hrun as <- _.
    eapply IH; [exact Hevs| |exact E2].
    eapply latestInv_step; eassumption.
Qed.

(** X11. After the last change of the crop, once its timer has fired and its
    estimate has settled, the size on display is the estimate for that
    crop, whatever happened before and in whatever order the estimates
    still in flight settle. *)
Theorem estimate_settles_on_latest :
  forall (earlier later : list (Event Image)) (image : Image)
         (area : Area.t) (edited : bool)
         (st : Estimator Image) (log : list Obs),
    forallb (fun e => negb (isRender e)) later = true ->
    run size makeJpegBlob mounted
      (earlier ++ Render (Some image) (Some area) edited :: later)
    = (st, log) ->
    (forall j, In j (pendingJobs st) -> mySeq j <> estimateSeq st) ->
    findBestSizeOnly size makeJpegBlob image area
    = Some {| dw := outWidth st; dh := outHeight st |}.
Proof.
  intros earlier later image area edited st log Hlater Hrun Hidle.
  rewrite run_app in Hrun.
  destruct (run size makeJpegBlob mounted earlier) as [st0 log0] eqn:E0.
  cbn [run] in Hrun.
  destruct (step size makeJpegBlob st0
              (Render (Some image) (Some area) edited)) as [st1 o1] eqn:E1.
  destruct (run size makeJpegBlob st1 later) as [st2 o2] eqn:E2.
  injection Hrun as <- _.
  pose proof (run_preserves size makeJpegBlob earlier _ _ [] _
                estimatorInv_mounted E0) as Hinv0.
  pose proof (pending_tags_bounded _ _ Hinv0) as Hbound.
  assert (Hinv1 : latestInv size makeJpegBlob (S (estimateSeq st0))
                    image area st1).
  { cbn [step] in E1. injection E1 as <- _.
    split; [reflexivity|]. split.
    - intros j [<-|Hj]; cbn; [now split|].
      assert (Hp : In j (pendingJobs st0)).
      { unfold pendingJobs. destruct (timer st0); [now right|exact Hj]. }
      specialize (Hbound j Hp). split; lia.
    - left. eexists. split; [now left|reflexivity]. }
  pose proof (latestInv_run _ _ _ later _ _ _ Hlater Hinv1 E2)
    as (Hn & _ & [(j & Hj & Hjn)|Hdone]); [|exact Hdone].
  exfalso. apply (Hidle j Hj). congruence.
Qed.

(** A step never lowers the current number, and what it reports as
    finished carries the number of a callback that was pending. *)
Lemma step_finished (st st' : Estimator Image) (e : Event Image)
  (o : list Obs) :
  step size makeJpegBlob st e = (st', o) ->
  (estimateSeq st <= estimateSeq st')%nat /\
  (forall x t, In x o -> finishedTag x = Some t ->
     exists j, In j (pendingJobs st) /\ mySeq j = t) /\
  (forall j, In j (pendingJobs st') ->
     In j (awaiting st)
     \/ (isRender e = false /\ timer st = Some j)
     \/ (isRender e = true /\ mySeq j = S (estimateSeq st))).
Proof.
  intros Hstep. destruct e as [img area edited| |i]; cbn [step] in Hstep.
  - destruct img as [image|]; [destruct area as [a|]|];
      injection Hstep as <- <-; (split; [cbn; lia|]); split.
    + intros x t [<-|[]] E. discriminate.
    + intros j Hj. unfold pendingJobs in Hj. cbn in Hj.
      destruct Hj as [<-|Hj]; [right; right; now split|now left].
    + intros x t [].
    + intros j Hj. now left.
    + intros x t [].
    + intros j Hj. now left.
  - destruct (timer st) as [t|] eqn:Et; injection Hstep as <- <-;
      (split; [cbn; lia|]); (split; [intros x u []|]); intros j Hj;
      unfold pendingJobs in Hj; cbn in Hj.
    + apply in_app_or in Hj as [Hj|[<-|[]]]; [now left|].
      right. left. now split.
    + rewrite Et in Hj. now left.
  - destruct (nth_error (awaiting st) i) as [t|] eqn:Hnth.
    2:{ injection Hstep as <- <-. split; [lia|]. split; [intros x u []|].
        intros j Hj. unfold pendingJobs in Hj.
        destruct (timer st) as [u|]; [|now left].
        destruct Hj as [<-|Hj]; [right; left; now split|now left]. }
    assert (Ht : In t (pendingJobs st)).
    { unfold pendingJobs. apply nth_error_In in Hnth.
      destruct (timer st); [now right|exact Hnth]. }
    assert (Hpend : forall st1 : Estimator Image,
               timer st1 = timer st ->
               awaiting st1
               = firstn i (awaiting st) ++ skipn (S i) (awaiting st) ->
               forall j, In j (pendingJobs st1) ->
                 In j (awaiting st)
                 \/ (false = false /\ timer st = Some j)
                 \/ (false = true /\ mySeq j = S (estimateSeq st))).
    { intros st1 E1 E2 j Hj. unfold pendingJobs in Hj. rewrite E1, E2 in Hj.
      destruct (timer st) as [u|].
      - destruct Hj as [<-|Hj]; [right; left; now split|].
        left. now apply In_without_nth in Hj.
      - left. now apply In_without_nth in Hj. }
    assert (Hobs : forall (l : list Obs) x u,
               (forall y, In y l -> finishedTag y = Some (mySeq t)) ->
               In x l -> finishedTag x = Some u ->
               exists j, In j (pendingJobs st) /\ mySeq j = u).
    { intros l x u Hl Hx E. rewrite (Hl x Hx) in E. injection E as <-.
      now exists t. }
    destruct (findBestSizeOnly size makeJpegBlob (jobImage t) (jobCrop t))
      as [best|];
      [destruct (Nat.eqb (estimateSeq st) (mySeq t)); cbn [negb] in Hstep|];
      injection Hstep as <- <-; (split; [cbn; lia|]);
      (split; [|now apply Hpend]); intros x u; apply Hobs;
      intros y [<-|[]]; reflexivity.
Qed.

(** In a reachable state nothing has finished under a number above the
    current one. *)
Lemma finished_tags_bounded (evs : list (Event Image)) :
  forall st log0 st' log,
    estimatorInv st log0 ->
    (forall x t, In x log0 -> finishedTag x = Some t ->
                 (t <= estimateSeq st)%nat) ->
    run size makeJpegBlob st evs = (st', log) ->
    forall x t, In x (log0 ++ log) -> finishedTag x = Some t ->
                (t <= estimateSeq st')%nat.
Proof.
  induction evs as [|e evs IH]; intros st log0 st' log Hinv Hfin Hrun;
    cbn [run] in Hrun.
  - injection Hrun as <- <-. now rewrite app_nil_r.
  - destruct (step size makeJpegBlob st e) as [st1 o1] eqn:E1.
    destruct (run size makeJpegBlob st1 evs) as [st2 o2] eqn:E2.
    injection Hrun as <- <-. rewrite app_assoc.
    destruct (step_finished _ _ _ _ E1) as (Hle & Hobs & _).
    apply (IH st1 (log0 ++ o1)); [|clear IH|exact E2].
    + eapply step_preserves; eassumption.
    + intros x t Hx Ht. apply in_app_or in Hx as [Hx|Hx].
      * specialize (Hfin x t Hx Ht). lia.
      * destruct (Hobs x t Hx Ht) as (j & Hj & <-).
        pose proof (pending_tags_bounded _ _ Hinv j Hj). lia.
Qed.

Lemma cancelledInv_step (k : nat) (st st' : Estimator Image)
  (e : Event Image) (log o : list Obs) :
  cancelledInv k st log ->
  step size makeJpegBlob st e = (st', o) ->
  cancelledInv k st' (log ++ o).
Proof.
  intros (Hk & Hpend & Hlog) Hstep.
  destruct (step_finished _ _ _ _ Hstep) as (Hle & Hobs & Hnew).
  split; [lia|]. split.
  - intros j Hj.
    destruct (Hnew j Hj) as [Ha|[[_ Ht]|[_ Hs]]].
    + apply Hpend. unfold pendingJobs. destruct (timer st); [now right|auto].
    + apply Hpend. unfold pendingJobs. rewrite Ht. now left.
    + lia.
  - intros x Hx. apply in_app_or in Hx as [Hx|Hx]; [now apply Hlog|].
    intros E. destruct (Hobs x k Hx E) as (j & Hj & Hjk).
    now apply (Hpend j Hj).
Qed.

Lemma cancelledInv_run (k : nat) (evs : list (Event Image)) :
  forall st st' log0 log,
    cancelledInv k st log0 ->
    run size makeJpegBlob st evs = (st', log) ->
    cancelledInv k st' (log0 ++ log).
Proof.
  induction evs as [|e evs IH]; intros st st' log0 log Hinv Hrun;
    cbn [run] in Hrun.
  - injection Hrun as <- <-. now rewrite app_nil_r.
  - destruct (step size makeJpegBlob st e) as [st1 o1] eqn:E1.
    destruct (run size makeJpegBlob st1 evs) as [st2 o2] eqn:E2.
    injection Hrun as <- <-. rewrite app_assoc.
    eapply IH; [|exact E2]. eapply cancelledInv_step; eassumption.
Qed.

(** X12. Debounce.  An estimate whose render is followed by another render
    before its timer has fired never runs: its number is issued, but
    nothing is ever applied or discarded under that number. *)
Theorem superseded_timer_never_runs :
  forall (earlier later : list (Event Image)) (image : Image)
         (area : Area.t) (edited : bool) (img2 : option Image)
         (area2 : option Area.t) (edited2 : bool)
         (st0 st : Estimator Image) (log0 log : list Obs),
    run size makeJpegBlob mounted earlier = (st0, log0) ->
    run size makeJpegBlob mounted
      (earlier ++ Render (Some image) (Some area) edited
               :: Render img2 area2 edited2 :: later)
    = (st, log) ->
    In (Issued (S (estimateSeq st0))) log /\
    forall o, In o log -> finishedTag o <> Some (S (estimateSeq st0)).
Proof.
  intros earlier later image area edited img2 area2 edited2 st0 st log0 log
    E0 Hrun.
  rewrite run_app, E0 in Hrun. cbn [run] in Hrun.
  destruct (step size makeJpegBlob st0
              (Render (Some image) (Some area) edited)) as [st1 o1] eqn:E1.
  destruct (step size makeJpegBlob st1 (Render img2 area2 edited2))
    as [st2 o2] eqn:E2.
  destruct (run size makeJpegBlob st2 later) as [st3 o3] eqn:E3.
  injection Hrun as <- <-.
  pose proof (run_preserves size makeJpegBlob earlier _ _ [] _
                estimatorInv_mounted E0) as Hinv0.
  cbn [app] in Hinv0.
  pose proof (pending_tags_bounded _ _ Hinv0) as Hbound.
  pose proof (finished_tags_bounded earlier _ [] _ _ estimatorInv_mounted
                (fun x t (H : In x []) => match H with end) E0) as Hfin0.
  cbn [app] in Hfin0.
  destruct (step_finished _ _ _ _ E2) as (Hle2 & Hobs2 & Hnew2).
  assert (Hst1 : estimateSeq st1 = S (estimateSeq st0)
                 /\ awaiting st1 = awaiting st0
                 /\ o1 = [Issued (S (estimateSeq st0))]).
  { cbn [step] in E1. injection E1 as <- <-. now repeat split. }
  destruct Hst1 as (Hs1 & Ha1 & ->).
  assert (Ho2 : forall x, In x o2 -> finishedTag x = None).
  { cbn [step] in E2.
    destruct img2 as [i2|]; [destruct area2 as [a2|]|];
      injection E2 as _ <-; intros x Hx; try now destruct Hx.
    destruct Hx as [<-|[]]. reflexivity. }
  assert (Hc2 : cancelledInv (S (estimateSeq st0)) st2
                  (log0 ++ [Issued (S (estimateSeq st0))] ++ o2)).
  { split; [lia|]. split.
    - intros j Hj. destruct (Hnew2 j Hj) as [Ha|[[Hr _]|[_ Hs]]].
      + rewrite Ha1 in Ha.
        assert (Hp : In j (pendingJobs st0)).
        { unfold pendingJobs. destruct (timer st0); [now right|exact Ha]. }
        specialize (Hbound j Hp). lia.
      + discriminate.
      + lia.
    - intros x Hx E. apply in_app_or in Hx as [Hx|Hx].
      + specialize (Hfin0 x _ Hx E). lia.
      + apply in_app_or in Hx as [[<-|[]]|Hx]; [discriminate|].
        rewrite (Ho2 x Hx) in E. discriminate. }
  pose proof (cancelledInv_run _ later _ _ _ _ Hc2 E3) as (_ & _ & Hlog).
  split.
  - apply in_or_app. right. now left.
  - intros o Ho. apply Hlog.
    rewrite <- !app_assoc. cbn [app].
    apply in_app_or in Ho as [Ho|Ho]; [apply in_or_app; now left|].
    apply in_or_app. right. exact Ho.
Qed.

End Debounce.

Lemma estimate_settles_on_latest_witness :
  let st := fst (run (fun b : Z => b) sampleEncoder mounted rapidABC) in
  findBestSizeOnly (fun b : Z => b) sampleEncoder tt crop600x800
  = Some {| dw := outWidth st; dh := outHeight st |}.
Proof.
  intros st.
  apply (estimate_settles_on_latest (fun b : Z => b) sampleEncoder
           [ Render (Some tt) (Some crop1200x1600) false; TimerFires;
             Render (Some tt) (Some crop800x1000) false; TimerFires ]
           [ Settles 1; Settles 0; TimerFires; Settles 0 ]
           tt crop600x800 false st
           (snd (run (fun b : Z => b) sampleEncoder mounted rapidABC))).
  - reflexivity.
  - apply surjective_pairing.
  - intros j Hj. vm_compute in Hj. destruct Hj.
Defined.

Lemma superseded_timer_never_runs_witness :
  let log := snd (run (fun b : Z => b) sampleEncoder mounted debouncedAB) in
  In (Issued 1) log /\ forall o, In o log -> finishedTag o <> Some 1%nat.
Proof.
  intros log.
  apply (superseded_timer_never_runs (fun b : Z => b) sampleEncoder
           [] [TimerFires; Settles 0] tt crop1200x1600 false
           (Some tt) (Some crop600x800) false mounted
           (fst (run (fun b : Z => b) sampleEncoder mounted debouncedAB))
           [] log).
  - reflexivity.
  - apply surjective_pairing.
Defined.

(** ** Crop geometry, continued *)

(** On integers, [Math.round(W / TARGET_AR)] is [(8 W + 3) / 6] rounded
    down. *)
Lemma round_over_TARGET_AR (W : Z) :
  JSMath.round (inject_Z W / TARGET_AR) = ((8 * W + 3) / 6)%Z.
Proof.
  unfold JSMath.round. rewrite Zdiv_Qdiv. apply Qfloor_comp.
  rewrite inject_Z_plus, inject_Z_mult, over_TARGET_AR.
  change (inject_Z 8) with 8. change (inject_Z 3) with 3.
  change (inject_Z 6) with 6. field.
Qed.

(** The zoom-1 view is not wider than the raster, except on a raster whose
    width leaves remainder 2 modulo 3 and whose height is at least 4/3 of
    the width: there line 140 rounds up and the view is a quarter of a
    pixel too wide. *)
Lemma baseH_width (W H : Z) :
  ((W mod 3 <> 2)%Z \/ inject_Z H < inject_Z W / TARGET_AR ->
   baseH (inject_Z W) (inject_Z H) * TARGET_AR <= inject_Z W) /\
  ((W mod 3 = 2)%Z -> inject_Z W / TARGET_AR <= inject_Z H ->
   baseH (inject_Z W) (inject_Z H) * TARGET_AR == inject_Z W + 0.25).
Proof.
  unfold baseH.
  assert (EAR : TARGET_AR == (3 # 4)) by reflexivity.
  destruct (Qle_bool (inject_Z W / TARGET_AR) (inject_Z H)) eqn:E.
  - apply Qle_bool_iff in E. rewrite round_over_TARGET_AR. split.
    + intros [Hmod|Hlt]; [|lra].
      assert (Hz : ((8 * W + 3) / 6 * 3 <= 4 * W)%Z)
        by (Z.div_mod_to_equations; lia).
      rewrite Zle_Qle, !inject_Z_mult in Hz.
      change (inject_Z 3) with 3 in Hz. change (inject_Z 4) with 4 in Hz.
      rewrite EAR. lra.
    + intros Hmod _.
      assert (Hz : ((8 * W + 3) / 6 * 3 = 4 * W + 1)%Z)
        by (Z.div_mod_to_equations; lia).
      apply (f_equal inject_Z) in Hz.
      rewrite inject_Z_plus, !inject_Z_mult in Hz.
      change (inject_Z 3) with 3 in Hz. change (inject_Z 4) with 4 in Hz.
      change (inject_Z 1) with 1 in Hz.
      rewrite EAR. setoid_replace 0.25 with (1 # 4) by reflexivity.
      assert (Hq : inject_Z ((8 * W + 3) / 6) * 3 == 4 * inject_Z W + 1)
        by (rewrite Hz; reflexivity).
      lra.
  - assert (Hlt : ~ inject_Z W / TARGET_AR <= inject_Z H).
    { intros Hle. apply Qle_bool_iff in Hle. congruence. }
    split; [|intros _ Hle; contradiction].
    intros _. rewrite over_TARGET_AR in Hlt. rewrite EAR. lra.
Qed.

Lemma autoAlign_zoom_le_5 (st : PageState) (face : DetectBox) :
  (exists img, imgEl st = Some img) -> zoom (autoAlign st face) <= 5.
Proof.
  intros [img Himg]. unfold autoAlign. rewrite Himg. cbn [zoom].
  unfold JSMath.max, JSMath.min.
  apply Q.max_lub; [lra|apply Q.le_min_l].
Qed.

(** X14. On a loaded raster whose width does not leave remainder 2 modulo 3, or
    whose height is below 4/3 of its width, the view that [autoAlign] sets
    lies inside the raster and has the target aspect ratio, and the zoom is
    between 1 and 5, for every face box and for none. *)
Theorem autoAlign_view_inside_raster :
  forall (st : PageState) (img : HTMLImageElement) (face : DetectBox),
    imgEl st = Some img ->
    (0 < naturalWidth img)%Z -> (0 < naturalHeight img)%Z ->
    (naturalWidth img mod 3 <> 2)%Z
    \/ inject_Z (naturalHeight img) < inject_Z (naturalWidth img) / TARGET_AR ->
    let r := viewRect img (autoAlign st face) in
    insideRaster img r /\
    Area.width r == Area.height r * TARGET_AR /\
    1 <= zoom (autoAlign st face) /\ zoom (autoAlign st face) <= 5.
Proof.
  intros st img face Himg HW HH Hfit r.
  destruct (autoAlign_view_rect st img face Himg HW HH)
    as (Hz & Har & Hy0 & Hy1 & Hx0 & Hx1).
  fold r in Har, Hy0, Hy1, Hx0, Hx1.
  pose proof (proj1 (baseH_width (naturalWidth img) (naturalHeight img)) Hfit)
    as Hbase.
  assert (Hnn : 0 <= baseH (inject_Z (naturalWidth img))
                       (inject_Z (naturalHeight img)))
    by (apply baseH_nonneg; lia).
  destruct (div_by_zoom _ _ Hnn Hz) as [Hv0 Hv1].
  assert (Eh : Area.height r
               == baseH (inject_Z (naturalWidth img))
                    (inject_Z (naturalHeight img))
                  / zoom (autoAlign st face)) by reflexivity.
  assert (Hw : Area.width r <= inject_Z (naturalWidth img)).
  { rewrite Har, Eh.
    assert (EAR : TARGET_AR == (3 # 4)) by reflexivity.
    rewrite EAR in *. lra. }
  split; [|split; [exact Har|split; [exact Hz|]]].
  - unfold insideRaster. auto.
  - apply autoAlign_zoom_le_5. eauto.
Qed.

Lemma autoAlign_view_inside_raster_witness :
  let img := {| naturalWidth := 1000; naturalHeight := 1500 |} in
  let r := viewRect img (autoAlign samplePage (Some sampleFace)) in
  insideRaster img r /\
  Area.width r == Area.height r * TARGET_AR /\
  1 <= zoom (autoAlign samplePage (Some sampleFace)) /\
  zoom (autoAlign samplePage (Some sampleFace)) <= 5.
Proof.
  intros img r.
  apply (autoAlign_view_inside_raster samplePage img (Some sampleFace));
    [reflexivity | reflexivity | reflexivity |].
  left. vm_compute. discriminate.
Defined.

(** X15. Without a usable face (no detector, a detector that throws, no array,
    an empty array or a first face without a box), [autoAlign] on a loaded
    raster sets the zoom to 1, shows the whole zoom-1 view height, and,
    when that view is not wider than the raster, centres it
    horizontally. *)
Theorem autoAlign_without_face :
  forall (st : PageState) (img : HTMLImageElement)
         (FaceDetector : option Detection),
    imgEl st = Some img ->
    (0 < naturalWidth img)%Z -> (0 < naturalHeight img)%Z ->
    detectFace FaceDetector = None ->
    let W := inject_Z (naturalWidth img) in
    let st' := autoAlign st (detectFace FaceDetector) in
    let r := viewRect img st' in
    zoom st' == 1 /\
    Area.height r == baseH W (inject_Z (naturalHeight img)) /\
    (Area.width r <= W -> Area.x r + Area.width r / 2 == W / 2).
Proof.
  intros st img d Himg HW HH Hnone W st' r.
  pose proof (inject_Z_pos _ HW) as HWq.
  pose proof (inject_Z_pos _ HH) as HHq.
  assert (Hb : 0 < baseH W (inject_Z (naturalHeight img))).
  { unfold baseH, W.
    destruct (Qle_bool _ _); [|exact HHq].
    rewrite round_over_TARGET_AR. apply inject_Z_pos.
    Z.div_mod_to_equations. lia. }
  subst st' r. rewrite Hnone. unfold autoAlign. rewrite Himg.
  unfold viewRect.
  cbn [zoom crop Crop.x Crop.y Area.x Area.y Area.width Area.height].
  fold W. change (0 < W) in HWq.
  set (H := inject_Z (naturalHeight img)) in *.
  set (b := baseH W H) in *.
  assert (Ez : JSMath.max 1 (JSMath.min 5 (b / b)) == 1).
  { assert (E1 : b / b == 1) by (field; lra).
    unfold JSMath.max, JSMath.min. rewrite E1.
    rewrite (Q.min_r 5 1) by lra. apply Q.max_l. lra. }
  rewrite !Ez.
  assert (Eh : b / 1 == b) by (field; lra).
  split; [reflexivity|]. split; [exact Eh|].
  rewrite !Eh. intros Hfit.
  set (left := JSMath.max 0 (JSMath.min _ (W - b * TARGET_AR))).
  assert (El : left == W / 2 - b * TARGET_AR / 2).
  { unfold left. apply clamp_id.
    - assert (E2 : W / 2 - b * TARGET_AR / 2
                   == (W - b * TARGET_AR) * (1 # 2)) by field.
      rewrite E2. lra.
    - assert (E2 : W / 2 - b * TARGET_AR / 2
                   == (W - b * TARGET_AR) * (1 # 2)) by field.
      rewrite E2. lra. }
  assert (Ex : - (- (left / W) * 100) / 100 * W == left) by (field; lra).
  rewrite Ex, El. field.
Qed.

Lemma autoAlign_without_face_witness :
  let img := {| naturalWidth := 1000; naturalHeight := 1500 |} in
  let st' := autoAlign samplePage (detectFace (Some Throws)) in
  let r := viewRect img st' in
  zoom st' == 1 /\
  Area.height r == baseH 1000 1500 /\
  (Area.width r <= 1000 -> Area.x r + Area.width r / 2 == 1000 / 2).
Proof.
  intros img st' r.
  apply (autoAlign_without_face samplePage img (Some Throws));
    reflexivity.
Defined.

(** X16. When neither clamp of lines 164-165 is active, [autoAlign] puts the
    centre of the face box in the horizontal middle of the view and on the
    guide line, [faceYFrac] of the view height below the top. *)
Theorem autoAlign_places_face :
  forall (st : PageState) (img : HTMLImageElement) (f : Area.t),
    imgEl st = Some img ->
    (0 < naturalWidth img)%Z -> (0 < naturalHeight img)%Z ->
    let W := inject_Z (naturalWidth img) in
    let H := inject_Z (naturalHeight img) in
    let st' := autoAlign st (Some f) in
    let r := viewRect img st' in
    let cx := Area.x f + Area.width f / 2 in
    let cy := Area.y f + Area.height f / 2 in
    0 <= cx - Area.width r / 2 -> cx + Area.width r / 2 <= W ->
    0 <= cy - faceYFrac st * Area.height r ->
    cy + (1 - faceYFrac st) * Area.height r <= H ->
    Area.x r + Area.width r / 2 == cx /\ guidePointY img st' == cy.
Proof.
  intros st img f Himg HW HH W H st' r cx cy.
  pose proof (inject_Z_pos _ HW) as HWq. change (0 < W) in HWq.
  pose proof (inject_Z_pos _ HH) as HHq. change (0 < H) in HHq.
  unfold guidePointY. fold r.
  assert (Ef : faceYFrac st' = faceYFrac st).
  { unfold st', autoAlign. now rewrite Himg. }
  rewrite Ef. clear Ef.
  subst r st'. unfold autoAlign. rewrite Himg. unfold viewRect.
  cbn [zoom crop Crop.x Crop.y Area.x Area.y Area.width Area.height].
  fold W H cx cy.
  set (z := JSMath.max 1 _).
  set (viewH := baseH W H / z).
  set (left := JSMath.max 0 (JSMath.min _ (W - viewH * TARGET_AR))).
  set (top := JSMath.max 0 (JSMath.min _ (H - viewH))).
  assert (Ex : - (- (left / W) * 100) / 100 * W == left) by (field; lra).
  assert (Ey : - (- (top / H) * 100) / 100 * H == top) by (field; lra).
  rewrite Ex, Ey. intros Hx0 Hx1 Hy0 Hy1.
  assert (El : left == cx - viewH * TARGET_AR / 2).
  { unfold left. apply clamp_id; [exact Hx0|].
    assert (E2 : viewH * TARGET_AR / 2 == viewH * TARGET_AR * (1 # 2))
      by field.
    rewrite E2 in *. lra. }
  assert (Et : top == cy - faceYFrac st * viewH).
  { unfold top. apply clamp_id; [exact Hy0|]. lra. }
  rewrite El, Et. split; ring.
Qed.

Lemma autoAlign_places_face_witness :
  let img := {| naturalWidth := 1000; naturalHeight := 1500 |} in
  let st' := autoAlign samplePage (Some sampleFace) in
  let r := viewRect img st' in
  Area.x r + Area.width r / 2
  == Area.x sampleFace + Area.width sampleFace / 2 /\
  guidePointY img st' == Area.y sampleFace + Area.height sampleFace / 2.
Proof.
  intros img st' r.
  apply (autoAlign_places_face samplePage img sampleFace);
    try reflexivity; vm_compute; discriminate.
Defined.

(** X17. When the face box is neither too small nor too large for the raster,
    [autoAlign] zooms so that the view height is the face height divided
    by [DESIRED_FACE_FRAC], rounded: the face takes up about 48% of the
    view height. *)
Theorem autoAlign_face_share :
  forall (st : PageState) (img : HTMLImageElement) (f : Area.t),
    imgEl st = Some img ->
    let W := inject_Z (naturalWidth img) in
    let H := inject_Z (naturalHeight img) in
    let d := inject_Z (JSMath.round (Area.height f / DESIRED_FACE_FRAC)) in
    32 <= d -> d <= H -> d <= baseH W H -> baseH W H <= 5 * d ->
    Area.height (viewRect img (autoAlign st (Some f))) == d /\
    zoom (autoAlign st (Some f)) == baseH W H / d.
Proof.
  intros st img f Himg W H d H32 HdH Hdb Hb5.
  unfold autoAlign. rewrite Himg. unfold viewRect.
  cbn [zoom crop Crop.x Crop.y Area.x Area.y Area.width Area.height].
  fold W H d. set (b := baseH W H) in *.
  unfold JSMath.max, JSMath.min.
  assert (Ed : Qmax 32 (Qmin H d) == d).
  { rewrite (Q.min_r H d) by exact HdH. apply Q.max_r. exact H32. }
  assert (Hq1 : 1 <= b / d) by (apply Qle_shift_div_l; lra).
  assert (Hq5 : b / d <= 5) by (apply Qle_shift_div_r; lra).
  assert (Ez : Qmax 1 (Qmin 5 (b / Qmax 32 (Qmin H d))) == b / d).
  { rewrite Ed. rewrite (Q.min_r 5 (b / d)) by exact Hq5.
    apply Q.max_r. exact Hq1. }
  rewrite Ez. split; [|reflexivity]. field. split; lra.
Qed.

Lemma autoAlign_face_share_witness :
  let img := {| naturalWidth := 1000; naturalHeight := 1500 |} in
  Area.height (viewRect img (autoAlign samplePage (Some sampleFace)))
  == 1000 /\
  zoom (autoAlign samplePage (Some sampleFace)) == baseH 1000 1500 / 1000.
Proof.
  intros img.
  apply (autoAlign_face_share samplePage img sampleFace);
    try reflexivity; vm_compute; discriminate.
Defined.

(** The view top that a state denotes is the [curTop] of line 186. *)
Lemma viewRect_top (img : HTMLImageElement) (st : PageState) :
  Area.y (viewRect img st)
  == - Crop.y (crop st) * 0.01 * inject_Z (naturalHeight img).
Proof. unfold viewRect. cbn [Area.y]. field. Qed.

(** X18. When the clamp of line 189 is not active, [nudgeFaceY] moves the view
    so that the raster point that was under the guide line is under it
    again at its new height. *)
Theorem nudgeFaceY_keeps_guide_point :
  forall (st : PageState) (img : HTMLImageElement) (v : Q),
    imgEl st = Some img ->
    (0 < naturalHeight img)%Z ->
    let H := inject_Z (naturalHeight img) in
    let viewH := Area.height (viewRect img st) in
    0 <= guidePointY img st - v * viewH ->
    guidePointY img st - v * viewH <= H - viewH ->
    guidePointY img (nudgeFaceY st v) == guidePointY img st.
Proof.
  intros st img v Himg HH H viewH Hlo Hhi.
  unfold guidePointY at 1.
  rewrite (nudgeFaceY_stores_newTop img st v Himg HH).
  assert (Ef : faceYFrac (nudgeFaceY st v) = v)
    by (unfold nudgeFaceY; now rewrite Himg).
  assert (Eh : Area.height (viewRect img (nudgeFaceY st v)) = viewH)
    by (unfold nudgeFaceY, viewRect; now rewrite Himg).
  rewrite Ef, Eh. unfold nudgeNewTop. fold H.
  change (baseH (inject_Z (naturalWidth img)) H / zoom st) with viewH.
  unfold guidePointY in Hlo, Hhi. fold viewH in Hlo, Hhi.
  pose proof (viewRect_top img st) as Etop. fold H in Etop.
  rewrite Etop in Hlo, Hhi.
  rewrite clamp_id; [|lra|lra].
  unfold guidePointY. fold viewH. rewrite Etop. ring.
Qed.

Lemma nudgeFaceY_keeps_guide_point_witness :
  let img := {| naturalWidth := 1000; naturalHeight := 1500 |} in
  guidePointY img (nudgeFaceY nudgedPage 0.44) == guidePointY img nudgedPage.
Proof.
  intros img.
  apply (nudgeFaceY_keeps_guide_point nudgedPage img 0.44);
    try reflexivity; vm_compute; discriminate.
Defined.

(** X19. Two nudges in a row end where the second alone would, provided the
    first one was not clamped: no drift accumulates. *)
Theorem nudgeFaceY_twice :
  forall (st : PageState) (img : HTMLImageElement) (v1 v2 : Q),
    imgEl st = Some img ->
    (0 < naturalWidth img)%Z -> (0 < naturalHeight img)%Z ->
    let H := inject_Z (naturalHeight img) in
    let viewH := Area.height (viewRect img st) in
    0 <= guidePointY img st - v1 * viewH ->
    guidePointY img st - v1 * viewH <= H - viewH ->
    let once := nudgeFaceY st v2 in
    let twice := nudgeFaceY (nudgeFaceY st v1) v2 in
    Crop.x (crop twice) == Crop.x (crop once) /\
    Crop.y (crop twice) == Crop.y (crop once) /\
    zoom twice = zoom once /\ faceYFrac twice = faceYFrac once.
Proof.
  intros st img v1 v2 Himg HW HH H viewH Hlo Hhi once twice.
  pose proof (inject_Z_pos _ HW) as HWq.
  pose proof (inject_Z_pos _ HH) as HHq. change (0 < H) in HHq.
  pose proof (viewRect_top img st) as Etop. fold H in Etop.
  unfold guidePointY in Hlo, Hhi. fold viewH in Hlo, Hhi.
  rewrite Etop in Hlo, Hhi.
  subst once twice. unfold nudgeFaceY. rewrite Himg.
  cbn [imgEl crop zoom faceYFrac Crop.x Crop.y].
  split; [field; lra|]. split; [|split; reflexivity].
  unfold nudgeNewTop.
  cbn [imgEl crop zoom faceYFrac Crop.x Crop.y]. fold H.
  change (baseH (inject_Z (naturalWidth img)) H / zoom st) with viewH.
  set (t0 := - Crop.y (crop st) * 0.01 * H) in *.
  assert (E1 : JSMath.max 0
                 (JSMath.min (t0 + faceYFrac st * viewH - v1 * viewH)
                    (H - viewH))
               == t0 + faceYFrac st * viewH - v1 * viewH)
    by (apply clamp_id; lra).
  set (n1 := JSMath.max 0
               (JSMath.min (t0 + faceYFrac st * viewH - v1 * viewH)
                  (H - viewH))) in *.
  assert (E2 : - (- (n1 / H) * 100) * 0.01 * H + v1 * viewH - v2 * viewH
               == t0 + faceYFrac st * viewH - v2 * viewH).
  { rewrite <- (Qplus_inj_r _ _ (v2 * viewH)).
    setoid_replace (- (- (n1 / H) * 100) * 0.01 * H + v1 * viewH
                    - v2 * viewH + v2 * viewH)
      with (n1 + v1 * viewH) by (field; lra).
    rewrite E1. ring. }
  unfold JSMath.max, JSMath.min in *.
  assert (E3 : Qmax 0
                 (Qmin (- (- (n1 / H) * 100) * 0.01 * H + v1 * viewH
                        - v2 * viewH) (H - viewH))
               == Qmax 0
                    (Qmin (t0 + faceYFrac st * viewH - v2 * viewH)
                       (H - viewH)))
    by (now rewrite E2).
  rewrite E3. reflexivity.
Qed.

Lemma nudgeFaceY_twice_witness :
  let once := nudgeFaceY nudgedPage 0.32 in
  let twice := nudgeFaceY (nudgeFaceY nudgedPage 0.44) 0.32 in
  Crop.x (crop twice) == Crop.x (crop once) /\
  Crop.y (crop twice) == Crop.y (crop once) /\
  zoom twice = zoom once /\ faceYFrac twice = faceYFrac once.
Proof.
  intros once twice.
  apply (nudgeFaceY_twice nudgedPage
           {| naturalWidth := 1000; naturalHeight := 1500 |} 0.44 0.32);
    try reflexivity; vm_compute; discriminate.
Defined.

(** ** File names *)

Lemma Forall_firstn_keep {A : Type} (P : A -> Prop) (l : list A) :
  forall n, Forall P l -> Forall P (firstn n l).
Proof.
  induction l as [|a l IH]; intros [|n] Hl; cbn; try constructor.
  - now inversion Hl.
  - apply IH. now inversion Hl.
Qed.

Lemma replaceForbidden_allowed (s : JSString) :
  Forall (fun c => isForbidden c = false) (replaceForbidden s).
Proof.
  unfold replaceForbidden. apply Forall_forall. intros c Hin.
  apply in_map_iff in Hin as (c0 & <- & _).
  destruct (isForbidden c0) eqn:E; [reflexivity|exact E].
Qed.

Lemma collapseFrom_allowed (s : JSString) :
  forall b,
    Forall (fun c => isForbidden c = false) s ->
    Forall (fun c => isForbidden c = false) (collapseFrom b s).
Proof.
  induction s as [|c s IH]; intros b Hs; cbn [collapseFrom];
    [constructor|].
  inversion Hs as [|? ? Hc Hs']; subst.
  destruct (isWhiteSpace c); [destruct b|].
  - now apply IH.
  - constructor; [reflexivity|now apply IH].
  - constructor; [exact Hc|now apply IH].
Qed.

Lemma collapseFrom_plain_spaces (s : JSString) :
  forall b,
    Forall (fun c => isWhiteSpace c = true -> c = 32%N) (collapseFrom b s).
Proof.
  induction s as [|c s IH]; intros b; cbn [collapseFrom]; [constructor|].
  destruct (isWhiteSpace c) eqn:E; [destruct b|].
  - apply IH.
  - constructor; [reflexivity|apply IH].
  - constructor; [congruence|apply IH].
Qed.

Lemma noSpaceRun_cons (a b : N) (l : JSString) :
  noSpaceRun (a :: b :: l)
  = negb (isWhiteSpace a && isWhiteSpace b) && noSpaceRun (b :: l).
Proof. reflexivity. Qed.

Lemma collapseFrom_no_run (s : JSString) :
  (match collapseFrom true s with
   | c :: _ => isWhiteSpace c = false
   | [] => True
   end) /\
  noSpaceRun (collapseFrom true s) = true /\
  noSpaceRun (collapseFrom false s) = true.
Proof.
  induction s as [|c s (IHh & IHt & IHf)]; cbn [collapseFrom];
    [now repeat split|].
  destruct (isWhiteSpace c) eqn:E.
  - split; [exact IHh|]. split; [exact IHt|].
    destruct (collapseFrom true s) as [|b l] eqn:El; [reflexivity|].
    rewrite noSpaceRun_cons, IHh, IHt. now rewrite andb_false_r.
  - assert (Hrun : noSpaceRun (c :: collapseFrom false s) = true).
    { destruct (collapseFrom false s) as [|b l] eqn:El; [reflexivity|].
      rewrite noSpaceRun_cons, E, IHf. reflexivity. }
    now repeat split.
Qed.

Lemma noSpaceRun_tail (a : N) (s : JSString) :
  noSpaceRun (a :: s) = true -> noSpaceRun s = true.
Proof.
  destruct s as [|b s]; [reflexivity|].
  rewrite noSpaceRun_cons. intros H. now apply andb_prop in H as [_ ?].
Qed.

Lemma noSpaceRun_firstn (s : JSString) :
  forall n, noSpaceRun s = true -> noSpaceRun (firstn n s) = true.
Proof.
  induction s as [|a s IH]; intros [|n] Hs; try reflexivity.
  cbn [firstn]. pose proof (IH n (noSpaceRun_tail _ _ Hs)) as Hn.
  destruct s as [|b s]; [now destruct n|].
  destruct n as [|n]; [reflexivity|].
  cbn [firstn] in *. rewrite noSpaceRun_cons in Hs |- *.
  apply andb_prop in Hs as [Hab _]. now rewrite Hab, Hn.
Qed.

(** X20. Whatever the name and the fallback, the sanitised name has at most 150
    code units and none of the nine code units that line 361 replaces. *)
Theorem sanitizeFileName_safe :
  forall name fallback : JSString,
    (length (sanitizeFileName name fallback) <= 150)%nat /\
    Forall (fun c => isForbidden c = false) (sanitizeFileName name fallback).
Proof.
  intros name fallback. unfold sanitizeFileName.
  set (n := if negb (truthy _) then fallback else _).
  pose proof (collapseFrom_allowed _ false (replaceForbidden_allowed n))
    as Hok.
  fold (collapseSpaces (replaceForbidden n)) in Hok.
  destruct (150 <? length (collapseSpaces (replaceForbidden n)))%nat eqn:E.
  - split; [apply firstn_le_length|now apply Forall_firstn_keep].
  - apply Nat.ltb_ge in E. now split.
Qed.

(** X21. Whatever the name and the fallback, the only white space left in the
    sanitised name is the plain space, and never two in a row. *)
Theorem sanitizeFileName_single_spaces :
  forall name fallback : JSString,
    Forall (fun c => isWhiteSpace c = true -> c = 32%N)
      (sanitizeFileName name fallback) /\
    noSpaceRun (sanitizeFileName name fallback) = true.
Proof.
  intros name fallback. unfold sanitizeFileName.
  set (n := if negb (truthy _) then fallback else _).
  pose proof (collapseFrom_plain_spaces (replaceForbidden n) false) as Hsp.
  pose proof (collapseFrom_no_run (replaceForbidden n)) as (_ & _ & Hrun).
  fold (collapseSpaces (replaceForbidden n)) in Hsp, Hrun.
  destruct (150 <? length (collapseSpaces (replaceForbidden n)))%nat.
  - split; [now apply Forall_firstn_keep|now apply noSpaceRun_firstn].
  - now split.
Qed.

Lemma truthy_collapseSpaces (s : JSString) :
  truthy (collapseSpaces s) = truthy s.
Proof.
  destruct s as [|c s]; [reflexivity|].
  unfold collapseSpaces. cbn [collapseFrom].
  now destruct (isWhiteSpace c).
Qed.

(** X22. With a fallback that is not empty, the sanitised name is not empty
    either, even for a name that is empty or all white space. *)
Theorem sanitizeFileName_not_empty :
  forall name fallback : JSString,
    fallback <> [] -> sanitizeFileName name fallback <> [].
Proof.
  intros name fallback Hfb.
  assert (Ht : forall s : JSString, truthy s = true <-> s <> [])
    by (intros [|c s]; cbn; split; congruence).
  apply Ht. apply Ht in Hfb. unfold sanitizeFileName.
  set (n1 := trim _).
  set (n := if negb (truthy n1) then fallback else n1).
  assert (Hn : truthy n = true)
    by (unfold n; destruct (truthy n1) eqn:E; cbn; assumption).
  assert (Hc : truthy (collapseSpaces (replaceForbidden n)) = true).
  { rewrite truthy_collapseSpaces. destruct n; [discriminate|reflexivity]. }
  destruct (150 <? length (collapseSpaces (replaceForbidden n)))%nat;
    [|exact Hc].
  destruct (collapseSpaces (replaceForbidden n)); [discriminate|reflexivity].
Qed.

Lemma sanitizeFileName_not_empty_witness :
  sanitizeFileName (codeUnits "   ") (codeUnits "id-photo_360x480") <> [].
Proof.
  apply sanitizeFileName_not_empty. discriminate.
Defined.

Lemma hd_rev_last (s : JSString) : hd 0%N (rev s) = last s 0%N.
Proof.
  destruct s as [|c s] using rev_ind; [reflexivity|].
  now rewrite rev_unit, last_last.
Qed.

Lemma trimStart_id (s : JSString) :
  isWhiteSpace (hd 0%N s) = false -> trimStart s = s.
Proof. destruct s as [|c s]; cbn; [reflexivity|]. now intros ->. Qed.

Lemma collapseFrom_id (s : JSString) :
  forallb (fun c => negb (isWhiteSpace c) || (c =? 32)%N) s = true ->
  noSpaceRun s = true ->
  collapseFrom false s = s /\
  (isWhiteSpace (hd 0%N s) = false -> collapseFrom true s = s).
Proof.
  induction s as [|c s IH]; intros Hall Hrun; [now split|].
  cbn [forallb] in Hall. apply andb_prop in Hall as [Hc Hall].
  pose proof (noSpaceRun_tail _ _ Hrun) as Hrun'.
  destruct (IH Hall Hrun') as [IHf IHt].
  cbn [collapseFrom hd]. destruct (isWhiteSpace c) eqn:E.
  - cbn in Hc. apply N.eqb_eq in Hc. subst c.
    split; [|discriminate]. f_equal. apply IHt.
    destruct s as [|b s]; [reflexivity|].
    rewrite noSpaceRun_cons in Hrun. apply andb_prop in Hrun as [Hab _].
    rewrite E in Hab. cbn [andb] in Hab. cbn [hd].
    now destruct (isWhiteSpace b).
  - split; [|intros _]; now rewrite IHf.
Qed.

(** X23. A name that is already clean comes back unchanged, whatever the
    fallback: code units outside the forbidden class and the white space,
    Japanese text for one, are kept as they are. *)
Theorem sanitizeFileName_keeps_clean_name :
  forall name fallback : JSString,
    isCleanName name = true -> sanitizeFileName name fallback = name.
Proof.
  intros name fallback Hclean. unfold isCleanName in Hclean.
  repeat (apply andb_prop in Hclean as [Hclean ?]).
  rename Hclean into Htruthy.
  match goal with H : negb (isWhiteSpace (hd _ _)) = true |- _ =>
    apply negb_true_iff in H; rename H into Hhd end.
  match goal with H : negb (isWhiteSpace (last _ _)) = true |- _ =>
    apply negb_true_iff in H; rename H into Hlast end.
  match goal with H : (length _ <=? 150)%nat = true |- _ =>
    apply Nat.leb_le in H; rename H into Hlen end.
  match goal with H : noSpaceRun _ = true |- _ => rename H into Hrun end.
  match goal with
  | H : forallb (fun c => negb (isForbidden c)) _ = true |- _ =>
      rename H into Hforb
  end.
  match goal with H : forallb _ _ = true |- _ => rename H into Hsp end.
  unfold sanitizeFileName. rewrite Htruthy.
  assert (Etrim : trim name = name).
  { unfold trim, trimEnd. rewrite (trimStart_id name Hhd).
    rewrite trimStart_id by (now rewrite hd_rev_last).
    apply rev_involutive. }
  rewrite Etrim, Htruthy. cbn [negb].
  assert (Erep : replaceForbidden name = name).
  { unfold replaceForbidden. rewrite <- (map_id name) at 2.
    apply map_ext_in. intros c Hin.
    rewrite forallb_forall in Hforb. specialize (Hforb c Hin).
    apply negb_true_iff in Hforb. now rewrite Hforb. }
  rewrite Erep.
  unfold collapseSpaces. rewrite (proj1 (collapseFrom_id name Hsp Hrun)).
  assert (E : (150 <? length name)%nat = false) by (apply Nat.ltb_ge; lia).
  now rewrite E.
Qed.

Lemma sanitizeFileName_keeps_clean_name_witness :
  sanitizeFileName (codeUnits "my_ photo _final_.JPG")
    (codeUnits "id-photo_360x480")
  = codeUnits "my_ photo _final_.JPG".
Proof.
  apply sanitizeFileName_keeps_clean_name. vm_compute. reflexivity.
Defined.

(** X24. The name offered for download always ends in [.jpg] or [.jpeg], in
    any mix of cases; it has at most 154 code units and none of the
    forbidden ones. *)
Theorem finalName_is_jpeg :
  forall filename fallback : JSString,
    hasJpegExtension (finalName filename fallback) = true /\
    (length (finalName filename fallback) <= 154)%nat /\
    Forall (fun c => isForbidden c = false) (finalName filename fallback).
Proof.
  intros filename fallback. unfold finalName.
  destruct (sanitizeFileName_safe filename fallback) as [Hlen Hok].
  destruct (hasJpegExtension (sanitizeFileName filename fallback)) eqn:E.
  - split; [exact E|]. split; [lia|exact Hok].
  - split; [|split].
    + unfold hasJpegExtension. now rewrite rev_app_distr.
    + rewrite length_app. cbn. lia.
    + apply Forall_app. split; [exact Hok|].
      repeat constructor.
Qed.

(** ** The budget and the shape of the export *)

Section ExportFacts.

Context {Image Blob : Type}.
Variable size : Blob -> Z.
Variable makeJpegBlob : Canvas Image -> Q -> Blob.

Lemma encodeJpegUnder2MB_quality_bounds (c : Canvas Image) (enc : Enc Blob) :
  encodeJpegUnder2MB size makeJpegBlob c = Some enc ->
  0.5 <= q enc /\ q enc < 0.95.
Proof.
  destruct (encodeJpegUnder2MB_cases size makeJpegBlob c)
    as [(v & Hv & E)|(_ & _ & E)]; rewrite E; intros Henc;
    injection Henc as <-; cbn [q].
  - apply lastFit_some in Hv as [Hin _].
    pose proof (midpointQualities_between size makeJpegBlob c) as Hb.
    rewrite Forall_forall in Hb. destruct (Hb v Hin). split; lra.
  - split; [lra|reflexivity].
Qed.

(** X9. The export is within [MAX_BYTES] whenever one of the eight sampled
    scales passes the test of line 259; an export over the budget can only
    come from the fallback branch, and then it is
    [min(800, floor(width))] wide.  Either way its quality lies in
    [[0.5, 0.95)]. *)
Theorem findBestSizeAndEncode_within_budget :
  forall (image : Image) (cropPx : Area.t),
    exists r,
      findBestSizeAndEncode size makeJpegBlob image cropPx = Some r /\
      (Exists (fun s => scaleFits size makeJpegBlob image cropPx s = true)
         (midpointScales size makeJpegBlob image cropPx) ->
       (size (sblob r) <= MAX_BYTES)%Z) /\
      ((MAX_BYTES < size (sblob r))%Z ->
       Forall (fun s => scaleFits size makeJpegBlob image cropPx s = false)
         (midpointScales size makeJpegBlob image cropPx) /\
       w r = Z.min 800 (JSMath.floor (Area.width cropPx))) /\
      0.5 <= sq r /\ sq r < 0.95.
Proof.
  intros image cropPx.
  pose proof encodeJpegUnder2MB_quality_bounds as Hq.
  destruct (findBestSizeAndEncode_cases size makeJpegBlob image cropPx)
    as [(s & Hs & E)|(Hn & enc & Henc & E)].
  - destruct (encodeJpegUnder2MB_total size makeJpegBlob
                (canvasAt image cropPx s)) as [enc Henc].
    pose proof (lastFit_some _ _ _ Hs) as [_ Hfit].
    rewrite (scaleFits_eq _ _ _ _ _ _ Henc) in Hfit.
    apply Z.leb_le in Hfit.
    rewrite E, (sizedAt_eq _ _ _ _ _ _ Henc).
    eexists. split; [reflexivity|]. cbn [sblob sq w].
    split; [intros _; exact Hfit|]. split; [intros Hover; lia|].
    now apply (Hq _ _ Henc).
  - rewrite E. eexists. split; [reflexivity|]. cbn [sblob sq w].
    split; [|split].
    + intros Hex. apply lastFit_exists in Hex as [u Hu]. congruence.
    + intros _. split; [now apply lastFit_none|reflexivity].
    + now apply (Hq _ _ Henc).
Qed.


End ExportFacts.


(** ** The file name and the preview estimate *)

Section EditedName.

Context {Image Blob : Type}.
Variable size : Blob -> Z.
Variable makeJpegBlob : Canvas Image -> Q -> Blob.

Lemma editedInv_step (n : nat) (fn : Filename) (st st' : Estimator Image)
  (e : Event Image) (o : list Obs) :
  isRender e = false ->
  editedInv n fn st ->
  step size makeJpegBlob st e = (st', o) ->
  editedInv n fn st'.
Proof.
  intros He Hinv Hstep. pose proof Hinv as (Hn & Hfn & Hjobs).
  destruct (step_finished size makeJpegBlob _ _ _ _ Hstep)
    as (_ & _ & Hnew).
  assert (Hpend : forall j, In j (pendingJobs st') -> In j (pendingJobs st)).
  { intros j Hj. destruct (Hnew j Hj) as [Ha|[[_ Ht]|[Hr _]]].
    - unfold pendingJobs. destruct (timer st); [now right|exact Ha].
    - unfold pendingJobs. rewrite Ht. now left.
    - congruence. }
  destruct e as [? ? ?| |i]; [discriminate| |]; cbn [step] in Hstep.
  - destruct (timer st) as [t|]; injection Hstep as <- <-; [|exact Hinv].
    split; [exact Hn|]. split; [exact Hfn|].
    intros j Hj. apply Hjobs, Hpend.
    unfold pendingJobs in *. exact Hj.
  - destruct (nth_error (awaiting st) i) as [t|] eqn:Hnth;
      [|injection Hstep as <- <-; exact Hinv].
    assert (Ht : In t (pendingJobs st)).
    { unfold pendingJobs. apply nth_error_In in Hnth.
      destruct (timer st); [now right|exact Hnth]. }
    destruct (findBestSizeOnly size makeJpegBlob (jobImage t) (jobCrop t))
      as [best|];
      [destruct (Nat.eqb (estimateSeq st) (mySeq t)) eqn:Heq;
       cbn [negb] in Hstep|];
      injection Hstep as <- <-;
      (split; [exact Hn|]); (split; [|intros j Hj; now apply Hjobs, Hpend]);
      try exact Hfn.
    cbn [filename]. apply Nat.eqb_eq in Heq.
    destruct (Hjobs t Ht) as [_ Hed].
    rewrite Hed by congruence. exact Hfn.
Qed.

Lemma editedInv_run (n : nat) (fn : Filename) (evs : list (Event Image)) :
  forall st st' log,
    forallb (fun e => negb (isRender e)) evs = true ->
    editedInv n fn st ->
    run size makeJpegBlob st evs = (st', log) ->
    editedInv n fn st'.
Proof.
  induction evs as [|e evs IH]; intros st st' log Hevs Hinv Hrun;
    cbn [run forallb] in *.
  - now injection Hrun as <- _.
  - apply andb_prop in Hevs as [He Hevs]. apply negb_true_iff in He.
    destruct (step size makeJpegBlob st e) as [st1 o1] eqn:E1.
    destruct (run size makeJpegBlob st1 evs) as [st2 o2] eqn:E2.
    injection Hrun as <- _.
    eapply IH; [exact Hevs| |exact E2].
    eapply editedInv_step; eassumption.
Qed.

(** X13. After a render with an image, a crop and [userEditedName = true], no
    estimate changes the file name until the next render, neither the one
    this render schedules nor an older one that settles late. *)
Theorem edited_filename_is_kept :
  forall (earlier later : list (Event Image)) (image : Image)
         (area : Area.t) (st0 st : Estimator Image) (log0 log : list Obs),
    forallb (fun e => negb (isRender e)) later = true ->
    run size makeJpegBlob mounted earlier = (st0, log0) ->
    run size makeJpegBlob mounted
      (earlier ++ Render (Some image) (Some area) true :: later)
    = (st, log) ->
    filename st = filename st0.
Proof.
  intros earlier later image area st0 st log0 log Hlater E0 Hrun.
  rewrite run_app, E0 in Hrun. cbn [run] in Hrun.
  destruct (step size makeJpegBlob st0
              (Render (Some image) (Some area) true)) as [st1 o1] eqn:E1.
  destruct (run size makeJpegBlob st1 later) as [st2 o2] eqn:E2.
  injection Hrun as <- _.
  pose proof (run_preserves size makeJpegBlob earlier _ _ [] _
                estimatorInv_mounted E0) as Hinv0.
  pose proof (pending_tags_bounded _ _ Hinv0) as Hbound.
  assert (Hinv1 : editedInv (S (estimateSeq st0)) (filename st0) st1).
  { cbn [step] in E1. injection E1 as <- _.
    split; [reflexivity|]. split; [reflexivity|].
    intros j [<-|Hj]; cbn; [now split|].
    assert (Hp : In j (pendingJobs st0)).
    { unfold pendingJobs. destruct (timer st0); [now right|exact Hj]. }
    specialize (Hbound j Hp). split; lia. }
  now destruct (editedInv_run _ _ later _ _ _ Hlater Hinv1 E2) as (_ & ? & _).
Qed.

End EditedName.

Lemma edited_filename_is_kept_witness :
  filename
    (fst (run (fun b : Z => b) sampleEncoder mounted editedThenEstimated))
  = filename
      (fst (run (fun b : Z => b) sampleEncoder mounted
              [ Render (Some tt) (Some crop1200x1600) false; TimerFires;
                Settles 0 ])).
Proof.
  apply (edited_filename_is_kept (fun b : Z => b) sampleEncoder
           [ Render (Some tt) (Some crop1200x1600) false; TimerFires;
             Settles 0 ]
           [ TimerFires; Settles 0 ] tt crop600x800 _ _
           (snd (run (fun b : Z => b) sampleEncoder mounted
                   [ Render (Some tt) (Some crop1200x1600) false; TimerFires;
                     Settles 0 ]))
           (snd (run (fun b : Z => b) sampleEncoder mounted
                   editedThenEstimated))).
  - reflexivity.
  - apply surjective_pairing.
  - apply surjective_pairing.
Defined.
